(** * duplicate-cleaner: a shallow embedding of the detection and cleaning core

    The Go packages [duplicate] (duplicate/duplicate.go) and [cmd]
    (cmd/cmd.go) are embedded function by function; the first part of the
    file holds the model, the second part the proofs.

    Conventions of the embedding.
    - A Go [string] is a [string], a sequence of bytes; the Chinese messages
      are the UTF-8 bytes of the source file.
    - [int64] and [int] values are in [Z].  The only arithmetic of the code is
      counting the elements of a slice, and a Go slice has fewer than 2^63
      elements, so no wrap-around can be reached.
    - A Go [error] is its message ([err.Error()]); a value of type [error]
      that may be [nil] is an [option error].
    - A Go map is a [gmap].  A [range] over a map visits every entry once, in
      an order the language leaves open: a loop over a map takes the visiting
      order as an argument ([visit]), and the [_run] relation of a function
      covers every order that is a permutation of the entries of the map.
    - A [[]*FileInfo] whose pointers are pairwise distinct, as [walkDirs]
      allocates them, is a list of records; a write through the i-th pointer
      is an update at position i.
    - The progress bars and the log are write-only sinks and are left out.
    - What the operating system and the Go library answer (path functions,
      directory trees, file contents, digests) is collected in the class
      [Platform]; the file tree is a snapshot that does not change during a
      detection pass. *)

From Stdlib Require Import Ascii.
From stdpp Require Import gmap strings list fin_maps pretty.

Open Scope Z_scope.

(** * Part I: the model *)

(** ** Data model (duplicate.go, lines 34-43) *)

Record FileInfo := mkFileInfo { Path : string; Size : Z; Hash : string }.

#[global] Instance FileInfo_eq_dec : EqDecision FileInfo.
Proof. solve_decision. Defined.

Abbreviation FileInfos := (list FileInfo).
Abbreviation DupList := (gmap string (list FileInfo)).

Definition error := string.

Definition LF : ascii := ascii_of_nat 10.
Definition CR : ascii := ascii_of_nat 13.
Definition TAB : ascii := ascii_of_nat 9.
Definition newline : string := String LF EmptyString.
Definition tab : string := String TAB EmptyString.

(** [errors.Join]: [nil] when there is nothing to join, otherwise an error
    whose message is the messages separated by newlines.  Every error the
    program hands to it is non-nil. *)
Definition errors_Join (errs : list error) : option error :=
  match errs with
  | [] => None
  | _ => Some (String.concat newline errs)
  end.

(** ** Library functions on strings *)

(** [strings.ToLower] on the ASCII letters.  On other bytes the Go function
    decodes runes; the only runes it maps into ASCII are U+0130 (to i) and
    U+212A (to k), so for the comparisons [newHash] makes (against names
    spelled with the letters of md5, sha and digits) the byte-wise function
    decides the same. *)
Definition lower (c : ascii) : ascii :=
  let n := nat_of_ascii c in
  if ((65 <=? n) && (n <=? 90))%nat then ascii_of_nat (n + 32) else c.

Fixpoint ToLower (s : string) : string :=
  match s with
  | EmptyString => EmptyString
  | String c s' => String (lower c) (ToLower s')
  end.

(** Names that differ in the case of their ASCII letters only, said without
    [ToLower]: two bytes are the same letter when they are equal, or when
    one is an upper-case letter (A to Z, 65 to 90) and the other is the byte
    32 above it; two names are case variants when they have the same length
    and the same letters throughout. *)
Definition sameLetter (a b : ascii) : bool :=
  let x := nat_of_ascii a in
  let y := nat_of_ascii b in
  ((x =? y)
   || ((65 <=? x) && (x <=? 90) && (y =? x + 32))
   || ((65 <=? y) && (y <=? 90) && (x =? y + 32)))%nat.

Fixpoint caseVariant (s t : string) : bool :=
  match s, t with
  | EmptyString, EmptyString => true
  | String a s', String b t' => sameLetter a b && caseVariant s' t'
  | _, _ => false
  end.

(** [strings.Split(s, sep)] for a separator of one byte: the pieces of [s]
    between the separators, never fewer than one piece. *)
Fixpoint strings_Split (s : string) (sep : ascii) : list string :=
  match s with
  | EmptyString => [EmptyString]
  | String c s' =>
      if decide (c = sep) then EmptyString :: strings_Split s' sep
      else match strings_Split s' sep with
           | [] => [String c EmptyString]
           | piece :: pieces => String c piece :: pieces
           end
  end.

(** ** Partitioning a list by a key

    Vocabulary of the two grouping stages: the records of a list that carry
    a given key, how many they are, and when a map holds exactly the
    non-empty classes of a list. *)

Section partition_defs.
Context {A K : Type} `{Countable K} (key : A → K).

Definition bucket (k : K) (l : list A) : list A :=
  filter (λ x, key x = k) l.

Definition occurrences (k : K) (l : list A) : nat := length (bucket k l).

Definition is_index (m : gmap K (list A)) (l : list A) : Prop :=
  ∀ k, m !! k = if decide (bucket k l = []) then None else Some (bucket k l).

(** A map that counts the members of every non-empty class. *)
Definition is_count (c : gmap K Z) (l : list A) : Prop :=
  ∀ k, c !! k = if decide (bucket k l = []) then None
                else Some (Z.of_nat (occurrences k l)).

(** The records whose key occurs at least twice in the list. *)
Definition repeated (l : list A) : list A :=
  filter (λ x, (2 ≤ occurrences (key x) l)%nat) l.

(** The loop body [m[key x] = append(m[key x], x)]; a missing key reads as
    the nil slice. *)
Definition appendAt (m : gmap K (list A)) (x : A) : gmap K (list A) :=
  <[key x := default [] (m !! key x) ++ [x]]> m.

End partition_defs.

(** ** SizeGrouper: [groupBySize] (duplicate.go, lines 212-236) *)

(** First loop: [group[file.Size] = append(group[file.Size], file)]. *)
Definition sizeGroups (files : FileInfos) : gmap Z FileInfos :=
  foldl (λ group file,
           <[Size file := default [] (group !! Size file) ++ [file]]> group)
        ∅ files.

(** Second loop, over the entries of [group] in the order [visit]: a class of
    one record is deleted from the map, any other class is appended to
    [newFiles]. *)
Definition sizeSweep (visit : list (Z * FileInfos)) (group : gmap Z FileInfos)
  : gmap Z FileInfos * FileInfos :=
  foldl (λ '(group, newFiles) '(k, v),
           if decide (length v = 1%nat) then (delete k group, newFiles)
           else (group, newFiles ++ v))
        (group, []) visit.

Definition groupBySize_on (visit : list (Z * FileInfos)) (files : FileInfos)
  : FileInfos :=
  match files with
  | [] => []
  | _ => (sizeSweep visit (sizeGroups files)).2
  end.

Definition groupBySize_run (files out : FileInfos) : Prop :=
  ∃ visit, visit ≡ₚ map_to_list (sizeGroups files)
           ∧ out = groupBySize_on visit files.

(** One run: the map visited in the order [map_to_list] lists it. *)
Definition groupBySize (files : FileInfos) : FileInfos :=
  groupBySize_on (map_to_list (sizeGroups files)) files.

(** ** HashGrouper: [groupByHash] (duplicate.go, lines 185-210) *)

(** First loop: a record with an empty [Hash] is passed over; the others are
    copied into [group] and counted in [counts]. *)
Definition hashGroups (files : FileInfos) : DupList * gmap string Z :=
  foldl (λ '(group, counts) file,
           if decide (Hash file ≠ "") then
             (<[Hash file := default [] (group !! Hash file) ++ [file]]> group,
              <[Hash file := default 0 (counts !! Hash file) + 1]> counts)
           else (group, counts))
        (∅, ∅) files.

(** Second loop, over the entries of [counts] in the order [visit]. *)
Definition hashSweep (visit : list (string * Z)) (group : DupList) : DupList :=
  foldl (λ group '(k, v), if decide (v = 1) then delete k group else group)
        group visit.

(** The [nil] map of the early return and the empty map are both [∅]. *)
Definition groupByHash_on (visit : list (string * Z)) (files : FileInfos)
  : DupList :=
  match files with
  | [] => ∅
  | _ => hashSweep visit (hashGroups files).1
  end.

Definition groupByHash_run (files : FileInfos) (out : DupList) : Prop :=
  ∃ visit, visit ≡ₚ map_to_list (hashGroups files).2
           ∧ out = groupByHash_on visit files.

Definition groupByHash (files : FileInfos) : DupList :=
  groupByHash_on (map_to_list (hashGroups files).2) files.

(** The records that carry a hash. *)
Definition hashed (files : FileInfos) : FileInfos :=
  filter (λ f, Hash f ≠ "") files.

(** The records of a result, all groups together. *)
Definition records (l : DupList) : FileInfos := concat (map_to_list l).*2.

(** ** The digest selector: [newHash] (duplicate.go, lines 121-135) *)

Inductive HashAlg := MD5 | SHA1 | SHA256 | SHA512.

Definition newHash (hashName : string) : HashAlg :=
  let name := ToLower hashName in
  if decide (name = "sha1") then SHA1
  else if decide (name = "sha256") then SHA256
  else if decide (name = "sha512") then SHA512
  else MD5.

(** ** The platform: what the operating system and the Go library answer *)

(** What [os.Lstat] reports about an entry, as far as the program looks at
    it: the type bits of [info.Mode()] (none set: a regular file; the
    directory bit; any other: symbolic link, device, pipe, socket) and
    [info.Size()]. *)
Inductive FileMode := ModeRegular | ModeDir | ModeIrregular.

Record os_FileInfo := mkInfo { Mode : FileMode; fi_Size : Z }.

Definition IsDir (info : os_FileInfo) : bool :=
  match Mode info with ModeDir => true | _ => false end.

Definition IsRegular (info : os_FileInfo) : bool :=
  match Mode info with ModeRegular => true | _ => false end.

(** A file tree as [filepath.Walk] meets it.  [Missing]: [lstat] on the entry
    fails.  [Node]: [lstat] succeeds; for a directory [listing] is what
    reading its names gives, an error or the entries in lexical order (for
    anything else it is not looked at). *)
#[local] Unset Elimination Schemes.
Inductive entry :=
| Missing (name : string) (err : error)
| Node (name : string) (info : os_FileInfo) (listing : error + list entry).

#[local] Set Elimination Schemes.

Definition entry_name (e : entry) : string :=
  match e with
  | Missing name _ => name
  | Node name _ _ => name
  end.

(** What opening a file and streaming it into a digest gives: [os.Open]
    fails, [io.Copy] fails, or the bytes are read to the end. *)
Inductive read_outcome :=
| OpenFails (err : error)
| CopyFails (err : error)
| Bytes (content : string).

Class Platform := {
  (** [filepath.Abs]: the absolute path, or an error *)
  filepath_Abs : string → string + error;
  (** [filepath.Base] and [filepath.Join] *)
  filepath_Base : string → string;
  filepath_Join : string → string → string;
  (** [strings.EqualFold] *)
  strings_EqualFold : string → string → bool;
  (** the tree found at an absolute path *)
  os_Lstat : string → entry;
  (** opening and reading a file to its end *)
  os_Read : string → read_outcome;
  (** [hex.EncodeToString(h.Sum(nil))] after the content went through [h] *)
  hexdigest : HashAlg → string → string
}.

(** ** Walker: [filepath.Walk] and [walkDirs] (duplicate.go, lines 78-119) *)

(** The error a [WalkFunc] returns: one of the two sentinels of
    [path/filepath], or anything else. *)
Inductive werror := SkipDir | SkipAll | OtherErr (msg : error).

Definition werror_msg (e : werror) : error :=
  match e with
  | SkipDir => "skip this directory"
  | SkipAll => "skip everything and stop the walk"
  | OtherErr msg => msg
  end.

(** A [filepath.WalkFunc] that closes over the slice [files]. *)
Definition WalkFunc : Type :=
  string → option os_FileInfo → option error → FileInfos
  → FileInfos * option werror.

(** In the loop of [walk]: a [SkipDir] from an entry whose [lstat] failed, or
    from a directory, lets the loop go on; every other error ends it. *)
Definition tolerated (c : entry) (err : werror) : bool :=
  match err, c with
  | SkipDir, Missing _ _ => true
  | SkipDir, Node _ info _ => IsDir info
  | _, _ => false
  end.

Section walker_defs.
Context `{Platform}.

(** [walk] of path/filepath, together with the branch of its caller for an
    entry whose [lstat] failed (the function is called with a nil info and
    the error). *)
Fixpoint walk (fn : WalkFunc) (path : string) (e : entry) (files : FileInfos)
  {struct e} : FileInfos * option werror :=
  match e with
  | Missing _ err => fn path None (Some err) files
  | Node _ info listing =>
      if negb (IsDir info) then fn path (Some info) None files
      else
        match listing with
        | inl err => fn path (Some info) (Some err) files
        | inr names =>
            let '(files1, err1) := fn path (Some info) None files in
            match err1 with
            | Some _ => (files1, err1)
            | None =>
                (fix range (names : list entry) (files : FileInfos) :=
                   match names with
                   | [] => (files, None)
                   | c :: names' =>
                       let filename := filepath_Join path (entry_name c) in
                       let '(files', r) := walk fn filename c files in
                       match r with
                       | None => range names' files'
                       | Some err =>
                           if tolerated c err then range names' files'
                           else (files', Some err)
                       end
                   end) names files1
            end
        end
  end.

(** The loop of [walk] over the names of a directory, by itself. *)
Fixpoint walkRange (fn : WalkFunc) (path : string) (names : list entry)
  (files : FileInfos) : FileInfos * option werror :=
  match names with
  | [] => (files, None)
  | c :: names' =>
      let '(files', r) := walk fn (filepath_Join path (entry_name c)) c files in
      match r with
      | None => walkRange fn path names' files'
      | Some err =>
          if tolerated c err then walkRange fn path names' files'
          else (files', Some err)
      end
  end.

(** [filepath.Walk]: the two sentinels end the walk without an error. *)
Definition filepath_Walk (root : string) (fn : WalkFunc) (files : FileInfos)
  : FileInfos * option error :=
  let '(files', r) := walk fn root (os_Lstat root) files in
  match r with
  | None | Some SkipDir | Some SkipAll => (files', None)
  | Some (OtherErr msg) => (files', Some msg)
  end.

(** The function literal handed to [filepath.Walk] (lines 92-113).  Walk
    passes a nil [info] only together with an error; a nil [info] without one
    would be a nil dereference and is given the value of an abort. *)
Definition walkFn : WalkFunc := λ path info err files,
  match err with
  | Some _ => (files, Some SkipDir)
  | None =>
      match info with
      | None => (files, Some (OtherErr "invalid memory address or nil pointer dereference"))
      | Some info =>
          if IsDir info
             && (strings_EqualFold (filepath_Base path) ".git"
                 || strings_EqualFold (filepath_Base path) ".svn")
          then (files, Some SkipDir)
          else if negb (IsRegular info) then (files, None)
          else if 0 <? fi_Size info
               then (files ++ [mkFileInfo path (fi_Size info) ""], None)
               else (files, None)
      end
  end.

(** The test of the function literal for a repository directory. *)
Definition isRepo (path : string) : bool :=
  strings_EqualFold (filepath_Base path) ".git"
  || strings_EqualFold (filepath_Base path) ".svn".

(** The contract of the Walker, as a function of the tree: a record for
    every regular file of size above zero, nothing below an entry that
    cannot be read, nothing below a repository directory. *)
Fixpoint found (path : string) (e : entry) {struct e} : FileInfos :=
  match e with
  | Missing _ _ => []
  | Node _ info listing =>
      if IsDir info then
        match listing with
        | inl _ => []
        | inr names =>
            if isRepo path then []
            else (fix below (names : list entry) : FileInfos :=
                    match names with
                    | [] => []
                    | c :: names' =>
                        found (filepath_Join path (entry_name c)) c ++ below names'
                    end) names
        end
      else if IsRegular info && (0 <? fi_Size info)
           then [mkFileInfo path (fi_Size info) ""]
           else []
  end.

Fixpoint foundBelow (path : string) (names : list entry) : FileInfos :=
  match names with
  | [] => []
  | c :: names' => found (filepath_Join path (entry_name c)) c ++ foundBelow path names'
  end.

(** What [walk] returns for an entry: [SkipDir] for an entry that cannot be
    read and for a repository directory, nil otherwise. *)
Definition verdict (path : string) (e : entry) : option werror :=
  match e with
  | Missing _ _ => Some SkipDir
  | Node _ info listing =>
      if IsDir info then
        match listing with
        | inl _ => Some SkipDir
        | inr _ => if isRepo path then Some SkipDir else None
        end
      else None
  end.

(** An entry that cannot be read: [lstat] fails on it, or it is a directory
    whose names cannot be read. *)
Definition unreadable (e : entry) : Prop :=
  match e with
  | Missing _ _ => True
  | Node _ info (inl _) => IsDir info = true
  | Node _ _ (inr _) => False
  end.

(** A record as the Walker makes it: a size above zero and no hash yet. *)
Definition fresh (f : FileInfo) : Prop := 0 < Size f ∧ Hash f = "".

(** The records of the roots that resolve to an absolute path. *)
Fixpoint foundRoots (dirs : list string) : FileInfos :=
  match dirs with
  | [] => []
  | dir :: dirs' =>
      match filepath_Abs dir with
      | inr _ => foundRoots dirs'
      | inl absDir => found absDir (os_Lstat absDir) ++ foundRoots dirs'
      end
  end.

(** The loop of [walkDirs] over the roots, for any walk primitive [Walk]. *)
Fixpoint walkRoots
  (Walk : string → WalkFunc → FileInfos → FileInfos * option error)
  (dirs : list string) (files : FileInfos) : FileInfos * option error :=
  match dirs with
  | [] => (files, None)
  | dir :: dirs' =>
      match filepath_Abs dir with
      | inr _ => walkRoots Walk dirs' files
      | inl absDir =>
          let '(files', err) := Walk absDir walkFn files in
          match err with
          | Some e => ([], errors_Join [e])
          | None => walkRoots Walk dirs' files'
          end
      end
  end.

Definition walkDirsWith
  (Walk : string → WalkFunc → FileInfos → FileInfos * option error)
  (dirs : list string) : FileInfos * option error :=
  match dirs with
  | [] => ([], errors_Join ["目录未指定"])
  | _ => walkRoots Walk dirs []
  end.

Definition walkDirs (dirs : list string) : FileInfos * option error :=
  walkDirsWith filepath_Walk dirs.

(** ** Hasher: [calcHash] and [calcHashs] (duplicate.go, lines 137-183) *)

Definition calcHash (file : string) (h : HashAlg) : string * option error :=
  match os_Read file with
  | OpenFails err => ("", errors_Join [err])
  | CopyFails err => ("", errors_Join [err])
  | Bytes content => (hexdigest h content, None)
  end.

Definition setHash (f : FileInfo) (hashValue : string) : FileInfo :=
  mkFileInfo (Path f) (Size f) hashValue.

Definition hashError (f : FileInfo) (err : error) : error :=
  "计算文件 " +:+ Path f +:+ " 的Hash值失败: " +:+ err.

(** What the Hasher does to one record: the record with its digest, or the
    record as it was and the error that is collected. *)
Definition hashedBy (hashName : string) (f : FileInfo) : FileInfo :=
  match calcHash (Path f) (newHash hashName) with
  | (hashValue, None) => setHash f hashValue
  | (_, Some _) => f
  end.

Definition hashFailure (hashName : string) (f : FileInfo) : option error :=
  match calcHash (Path f) (newHash hashName) with
  | (_, None) => None
  | (_, Some e) => Some (hashError f e)
  end.

Definition hashSuccess (hashName : string) (f : FileInfo) : option FileInfo :=
  match calcHash (Path f) (newHash hashName) with
  | (hashValue, None) => Some (setHash f hashValue)
  | (_, Some _) => None
  end.

(** The goroutine started for the file at position [i]: it writes the digest
    into its own record, or appends to the shared [errs] under the mutex. *)
Definition hashTask (hashName : string) (st : FileInfos * list error) (i : nat)
  : FileInfos * list error :=
  let '(files, errs) := st in
  match files !! i with
  | None => st
  | Some f =>
      let h := newHash hashName in
      let '(hashValue, err) := calcHash (Path f) h in
      match err with
      | Some e => (files, errs ++ [hashError f e])
      | None => (<[i := setHash f hashValue]> files, errs)
      end
  end.

(** [calcHashs] with the goroutines finishing in the order [order].  Tasks
    touch disjoint records and read an unchanging file tree, so a run is
    determined by the order in which they reach the error list.  With
    [n < 1] the call does not return: [make] panics on a negative capacity,
    and on an unbuffered channel no task is ever admitted. *)
Definition calcHashs_on (order : list nat) (files : FileInfos)
  (hashName : string) (n : Z) : option (FileInfos * option error) :=
  match files with
  | [] => Some (files, None)
  | _ =>
      if n <? 1 then None
      else let '(files', errs) := foldl (hashTask hashName) (files, []) order in
           Some (files', errors_Join errs)
  end.

Definition calcHashs_run (files : FileInfos) (hashName : string) (n : Z)
  (res : FileInfos * option error) : Prop :=
  ∃ order, order ≡ₚ seq 0 (length files)
           ∧ calcHashs_on order files hashName n = Some res.

Definition calcHashs (files : FileInfos) (hashName : string) (n : Z)
  : option (FileInfos * option error) :=
  calcHashs_on (seq 0 (length files)) files hashName n.

(** ** The detection pass: [List] (duplicate.go, lines 45-55) *)

Definition List_run (dirs : list string) (hashName : string) (n : Z)
  (res : DupList * option error) : Prop :=
  match walkDirs dirs with
  | (_, Some err) => res = (∅, Some err)
  | (fs, None) =>
      ∃ fs1 fs2 err lst,
        groupBySize_run fs fs1
        ∧ calcHashs_run fs1 hashName n (fs2, err)
        ∧ groupByHash_run fs2 lst
        ∧ res = (lst, err)
  end.

Definition List (dirs : list string) (hashName : string) (n : Z)
  : option (DupList * option error) :=
  match walkDirs dirs with
  | (_, Some err) => Some (∅, Some err)
  | (fs, None) =>
      match calcHashs (groupBySize fs) hashName n with
      | None => None
      | Some (fs2, err) => Some (groupByHash fs2, err)
      end
  end.

End walker_defs.

(** ** Cleaner: [Clean] (duplicate.go, lines 57-76) *)

(** [os.Remove] on a world of type [World]. *)
Class Remover (World : Type) := os_Remove : string → World → World * option error.

Section cleaner_defs.
Context {World : Type} `{Remover World}.

Definition cleanError (file : string) (err : error) : error :=
  "文件" +:+ file +:+ "清理失败: " +:+ err.

(** The body of the loop; the state is the world, [n] and [errs]. *)
Definition cleanStep (st : World * Z * list error) (file : string)
  : World * Z * list error :=
  let '(w, n, errs) := st in
  let '(w', err) := os_Remove file w in
  match err with
  | Some e => (w', n, errs ++ [cleanError file e])
  | None => (w', n + 1, errs)
  end.

Definition cleanLoop (files : list string) (w : World) : World * Z * list error :=
  foldl cleanStep (w, 0, []) files.

Definition Clean (files : list string) (w : World) : World * (Z * option error) :=
  match files with
  | [] => (w, (0, None))
  | _ => let '(w', n, errs) := cleanLoop files w in (w', (n, errors_Join errs))
  end.

(** What happens to each path when every path of the list is tried in turn,
    whatever the fate of the earlier ones. *)
Fixpoint attempts (files : list string) (w : World)
  : list (string * option error) * World :=
  match files with
  | [] => ([], w)
  | file :: files' =>
      let '(w1, err) := os_Remove file w in
      let '(rest, w2) := attempts files' w1 in
      ((file, err) :: rest, w2)
  end.

Definition failure (a : string * option error) : option error :=
  cleanError a.1 <$> a.2.

Definition succeeded (a : string * option error) : Prop := a.2 = None.

#[global] Instance succeeded_dec a : Decision (succeeded a).
Proof. unfold succeeded. apply _. Defined.

End cleaner_defs.

(** A world for the examples: the set of the paths that exist. *)
#[global] Instance gset_Remover : Remover (gset string) := λ file w,
  if decide (file ∈ w) then (w ∖ {[file]}, None)
  else (w, Some ("remove " +:+ file +:+ ": no such file or directory")).

(** ** The list file: [saveList] and [readList] (cmd/cmd.go) *)

Definition splitLine : string := "--------".

(** The files the command line reads and writes: a name is bound to its
    content, or to the error that opening it gives; a name that is not bound
    does not exist. *)
Abbreviation Disk := (gmap string (error + string)).

(** [fmt.Sprintf("%s\t%dB\t%s\n", s.Path, s.Size, s.Hash)] *)
Definition recordLine (s : FileInfo) : string :=
  Path s +:+ tab +:+ pretty (Size s) +:+ "B" +:+ tab +:+ Hash s +:+ newline.

(** The line without its line feed. *)
Definition lineBody (s : FileInfo) : string :=
  Path s +:+ tab +:+ pretty (Size s) +:+ "B" +:+ tab +:+ Hash s.

(** The two nested loops of [saveList], writing to [out]; the groups are
    visited in the order [visit]. *)
Definition writeGroup (out : string) (v : FileInfos) : string :=
  foldl (λ out s, out +:+ recordLine s) (out +:+ splitLine +:+ newline) v.

Definition writeGroups (visit : list (string * FileInfos)) : string :=
  foldl (λ out '(_, v), writeGroup out v) "" visit.

(** [saveList] returns the disk, what went to the standard output, and the
    error.  Writes to an opened file are taken to succeed (the code does not
    look at their results). *)
Definition saveList_on (visit : list (string * FileInfos)) (f : string)
  (l : DupList) (d : Disk) : Disk * string * option error :=
  if decide (size l = 0%nat) then (d, "", Some "无重复文件")
  else
    match d !! f with
    | Some (inl err) => (d, "", Some err)
    | _ => let text := writeGroups visit in (<[f := inr text]> d, text, None)
    end.

Definition saveList_run (f : string) (l : DupList) (d : Disk)
  (res : Disk * string * option error) : Prop :=
  ∃ visit, visit ≡ₚ map_to_list l ∧ res = saveList_on visit f l d.

(** [bufio.Scanner] with its default split function [ScanLines] and its
    default buffer.  The text is cut at every line feed; what follows the
    last line feed is a line when it is not empty. *)
Fixpoint rawLines (s : string) : list string :=
  match s with
  | EmptyString => []
  | String c s' =>
      if decide (c = LF) then EmptyString :: rawLines s'
      else match rawLines s' with
           | [] => [String c EmptyString]
           | line :: lines => String c line :: lines
           end
  end.

(** [dropCR]: one carriage return at the end of a line is dropped. *)
Fixpoint dropCR (line : string) : string :=
  match line with
  | EmptyString => EmptyString
  | String c EmptyString => if decide (c = CR) then EmptyString else line
  | String c rest => String c (dropCR rest)
  end.

(** [bufio.MaxScanTokenSize]: a line that does not fit into the buffer ends
    the scan ([Scan] returns false; the program does not look at
    [scanner.Err()]). *)
Definition MaxScanTokenSize : Z := 64 * 1024.

Fixpoint scanTokens (lines : list string) : list string :=
  match lines with
  | [] => []
  | line :: lines' =>
      if decide (Z.of_nat (String.length line) < MaxScanTokenSize)
      then dropCR line :: scanTokens lines'
      else []
  end.

Definition scannerLines (content : string) : list string :=
  scanTokens (rawLines content).

Definition formatError (f : string) : error :=
  "文件 " +:+ f +:+ " 格式错误: 每行应包含文件路径".

Definition openError (f : string) (err : error) : error :=
  "无法打开文件 " +:+ f +:+ ": " +:+ err.

(** The loop [for scanner.Scan()] of [readList] over the lines of file [f]. *)
Fixpoint scanLoop (f : string) (lines : list string) (delList : list string)
  : list string * option error :=
  match lines with
  | [] => (delList, None)
  | line :: lines' =>
      if decide (line ≠ splitLine) then
        match strings_Split line TAB with
        | [] => ([], Some (formatError f))
        | s0 :: _ => scanLoop f lines' (delList ++ [s0])
        end
      else scanLoop f lines' delList
  end.

Fixpoint readFiles (files : list string) (d : Disk) (delList : list string)
  : list string * option error :=
  match files with
  | [] => (delList, None)
  | f :: files' =>
      match d !! f with
      | Some (inr content) =>
          match scanLoop f (scannerLines content) delList with
          | (delList', None) => readFiles files' d delList'
          | (_, Some err) => ([], Some err)
          end
      | Some (inl err) => ([], Some (openError f err))
      | None =>
          ([], Some (openError f ("open " +:+ f +:+ ": no such file or directory")))
      end
  end.

Definition readList (files : list string) (d : Disk) : list string * option error :=
  readFiles files d [].

(** Reading the groups back from the lines of a list file, as the format
    describes it: a delimiter line opens a group, and the first fields of the
    lines up to the next delimiter are its paths. *)
Definition firstField (line : string) : string :=
  default "" (head (strings_Split line TAB)).

(** The paths a list file names: the first field of every line that is not
    a delimiter. *)
Definition keptPaths (lines : list string) : list string :=
  omap (λ line, if decide (line ≠ splitLine) then Some (firstField line) else None)
       lines.

Fixpoint cutGroups (lines : list string) : list string * list (list string) :=
  match lines with
  | [] => ([], [])
  | line :: lines' =>
      let '(open, groups) := cutGroups lines' in
      if decide (line = splitLine) then ([], open :: groups)
      else (firstField line :: open, groups)
  end.

Definition groupsOfLines (lines : list string) : list (list string) :=
  (cutGroups lines).2.

(** Vocabulary of the round trip: whether a byte occurs in a string, the
    lines a result is written as, and the records the line format can hold: a
    path without tab and line feed, a hash without line feed, and a line
    that fits into the buffer of the scanner. *)
Fixpoint hasByte (c : ascii) (s : string) : bool :=
  match s with
  | EmptyString => false
  | String a s' => if decide (a = c) then true else hasByte c s'
  end.

Definition unlines (lines : list string) : string :=
  foldr (λ line text, line +:+ newline +:+ text) "" lines.

Definition linesOf (visit : list (string * FileInfos)) : list string :=
  concat ((λ kv : string * FileInfos, splitLine :: (lineBody <$> kv.2)) <$> visit).

Definition listable (s : FileInfo) : Prop :=
  hasByte TAB (Path s) = false
  ∧ hasByte LF (Path s) = false
  ∧ hasByte LF (Hash s) = false
  ∧ Z.of_nat (String.length (lineBody s)) < MaxScanTokenSize.

(** ** The command line: [Config], [checkConfig], [list], [clean], [Execute]
    (cmd/cmd.go)

    The fields of [Config] and the functions [list] and [clean] carry a
    prefix, since [list] is taken. *)

Record Config := mkConfig {
  cfg_hash : string;
  cfg_list : bool;
  cfg_clean : bool;
  cfg_outFile : string;
  cfg_count : Z;
  cfg_args : list string
}.

(** [checkConfig] (lines 126-143) *)
Definition checkConfig (cfg : Config) : option error :=
  if (cfg_list cfg && cfg_clean cfg) || (negb (cfg_list cfg) && negb (cfg_clean cfg))
  then Some "-l 和 -c 必须二选一"
  else if cfg_count cfg <? 1 then Some "同时计算数不能小于1"
  else if decide (length (cfg_args cfg) = 0%nat) then
    if cfg_list cfg then Some "请指定待分析的路径"
    else if cfg_clean cfg then Some "请指定待清理文件的列表"
    else None
  else None.

(** [fmt.Println(err)] *)
Definition Println (err : error) : string := err +:+ newline.

Section cmd_defs.
Context `{Platform} {World : Type} `{Remover World}.

(** [list] (lines 56-66): the result of [List] is saved only when [List]
    returned no error.  The outcome is the disk, what was printed, and the
    error. *)
Definition cmd_list_run (cfg : Config) (d : Disk)
  (res : Disk * string * option error) : Prop :=
  ∃ l err,
    List_run (cfg_args cfg) (cfg_hash cfg) (cfg_count cfg) (l, err)
    ∧ match err with
      | Some e => res = (d, "", Some e)
      | None => saveList_run (cfg_outFile cfg) l d res
      end.

(** One run of [list]: the maps visited in the order [map_to_list] lists
    them, the hashing tasks finishing in the order of the slice. *)
Definition cmd_list (cfg : Config) (d : Disk)
  : option (Disk * string * option error) :=
  match List (cfg_args cfg) (cfg_hash cfg) (cfg_count cfg) with
  | None => None
  | Some (_, Some e) => Some (d, "", Some e)
  | Some (l, None) => Some (saveList_on (map_to_list l) (cfg_outFile cfg) l d)
  end.

(** [clean] (lines 88-100): the outcome is the world after the deletions,
    what was printed, and the error. *)
Definition cmd_clean (cfg : Config) (d : Disk) (w : World)
  : World * string * option error :=
  match readList (cfg_args cfg) d with
  | (_, Some err) => (w, "", Some err)
  | (delList, None) =>
      let '(w', (n, err)) := Clean delList w in
      match err with
      | Some e => (w', "", Some e)
      | None => (w', "成功清理 " +:+ pretty n +:+ " 个文件", None)
      end
  end.

(** [Execute] (lines 35-54) on the configuration that [parseConfig] built
    from the command line.  The state is the disk of the list files, the
    world of the files to delete, and the standard output. *)
Definition Execute_run (cfg : Config) (d : Disk) (w : World)
  (res : Disk * World * string) : Prop :=
  match checkConfig cfg with
  | Some err => res = (d, w, Println err)
  | None =>
      if cfg_list cfg then
        ∃ d' out err,
          cmd_list_run cfg d (d', out, err)
          ∧ res = (d', w, out +:+ from_option Println "" err)
      else if cfg_clean cfg then
        let '(w', out, err) := cmd_clean cfg d w in
        res = (d, w', out +:+ from_option Println "" err)
      else res = (d, w, "")
  end.

End cmd_defs.

(** Two results with the same hashes and, under each hash, the same records
    up to their order. *)
Definition sameGroups (l1 l2 : DupList) : Prop :=
  ∀ h, option_Forall2 Permutation (l1 !! h) (l2 !! h).

(** The join of two joined errors: [errors.Join(err1, err2)]. *)
Definition joinTwo (err1 err2 : option error) : option error :=
  match err1, err2 with
  | None, _ => err2
  | _, None => err1
  | Some e1, Some e2 => Some (e1 +:+ newline +:+ e2)
  end.

Section pass_defs.
Context `{Platform}.

(** Among the records [fs], two files with the same digest have the same
    size. *)
Definition digestFixesSize (hashName : string) (fs : FileInfos) : Prop :=
  ∀ f g f' g',
    f ∈ fs → g ∈ fs →
    hashSuccess hashName f = Some f' → hashSuccess hashName g = Some g' →
    Hash f' = Hash g' → Size f = Size g.

(** A root that gives the Walker nothing to read: it does not resolve to an
    absolute path, or what is found there cannot be read. *)
Definition silentRoot (dir : string) : Prop :=
  match filepath_Abs dir with
  | inr _ => True
  | inl absDir => unreadable (os_Lstat absDir)
  end.

End pass_defs.

(** A string of [n] bytes [c]. *)
Fixpoint repeatByte (n : nat) (c : ascii) : string :=
  match n with
  | O => EmptyString
  | S n' => String c (repeatByte n' c)
  end.

(** ** Inputs of the examples *)

(** The scenario of the specification: A, B and C have 10 bytes, D has 20;
    A and B have the same content. *)
Definition fileA : FileInfo := mkFileInfo "/data/A" 10 "".
Definition fileB : FileInfo := mkFileInfo "/data/B" 10 "".
Definition fileC : FileInfo := mkFileInfo "/data/C" 10 "".
Definition fileD : FileInfo := mkFileInfo "/data/D" 20 "".

Definition scenario : FileInfos := [fileA; fileB; fileC; fileD].

Definition scenarioHashed : FileInfos :=
  [mkFileInfo "/data/A" 10 "336311a016184326ddf9893f9df8cb6c";
   mkFileInfo "/data/B" 10 "336311a016184326ddf9893f9df8cb6c";
   mkFileInfo "/data/C" 10 "2b5d4f4e0b5c1a0b0292ed5a6cfe6f0a"].

(** A list file with an empty line between two paths. *)
Definition listWithEmptyLine : string :=
  "/d/a" +:+ tab +:+ "10B" +:+ tab +:+ "0cc175b9c0f1b6a831c399e269772661"
  +:+ newline +:+ newline +:+ "/d/b" +:+ newline.

(** Two files with the same content; the name of the first holds a tab. *)
Definition tabGroups : DupList :=
  {[ "0cc175b9c0f1b6a831c399e269772661" :=
       [mkFileInfo ("/d/a" +:+ tab +:+ "b") 1 "0cc175b9c0f1b6a831c399e269772661";
        mkFileInfo "/d/c" 1 "0cc175b9c0f1b6a831c399e269772661"] ]}.

Definition plainGroups : DupList :=
  {[ "336311a016184326ddf9893f9df8cb6c" :=
       [mkFileInfo "/data/A" 10 "336311a016184326ddf9893f9df8cb6c";
        mkFileInfo "/data/B" 10 "336311a016184326ddf9893f9df8cb6c"] ]}.

(** A platform for the examples.  Directory [/data] holds A, B, C and E of
    10 bytes and D of 20 bytes, a directory [.git] and a directory that
    cannot be listed; A and B have the same content, E cannot be opened.
    The digest of the example is the content itself. *)
Definition dataTree : entry :=
  Node "data" (mkInfo ModeDir 4096)
    (inr [Node ".git" (mkInfo ModeDir 4096)
            (inr [Node "HEAD" (mkInfo ModeRegular 23) (inr [])]);
          Node "A" (mkInfo ModeRegular 10) (inr []);
          Node "B" (mkInfo ModeRegular 10) (inr []);
          Node "C" (mkInfo ModeRegular 10) (inr []);
          Node "D" (mkInfo ModeRegular 20) (inr []);
          Node "E" (mkInfo ModeRegular 10) (inr []);
          Node "empty" (mkInfo ModeRegular 0) (inr []);
          Node "link" (mkInfo ModeIrregular 10) (inr []);
          Node "locked" (mkInfo ModeDir 4096) (inl "open /data/locked: permission denied");
          Missing "gone" "lstat /data/gone: no such file or directory"]).

Definition lastElement (path : string) : string :=
  default path (last (strings_Split path "/"%char)).

#[global] Instance examplePlatform : Platform := {|
  filepath_Abs dir := if decide (dir = "") then inr "getwd: no such file or directory"
                      else inl dir;
  filepath_Base := lastElement;
  filepath_Join dir name := dir +:+ "/" +:+ name;
  strings_EqualFold a b := bool_decide (ToLower a = ToLower b);
  os_Lstat root := if decide (root = "/data") then dataTree
                   else Missing root ("lstat " +:+ root +:+ ": no such file or directory");
  os_Read file :=
    if decide (file = "/data/A") then Bytes "xxxxxxxxxx"
    else if decide (file = "/data/B") then Bytes "xxxxxxxxxx"
    else if decide (file = "/data/C") then Bytes "yyyyyyyyyy"
    else if decide (file = "/data/D") then Bytes "zzzzzzzzzzzzzzzzzzzz"
    else OpenFails ("open " +:+ file +:+ ": permission denied");
  hexdigest _ content := content
|}.

(** A walk primitive that fails by itself. *)
Definition brokenWalk (root : string) (fn : WalkFunc) (files : FileInfos)
  : FileInfos * option error :=
  (files, Some ("lstat " +:+ root +:+ ": input/output error")).

(** Two of the walked files of the example platform; the second cannot be
    opened. *)
Definition candidates : FileInfos :=
  [mkFileInfo "/data/A" 10 ""; mkFileInfo "/data/E" 10 ""].

(** The command lines of the examples. *)
Definition listConfig : Config := mkConfig "md5" true false "list.txt" 10 ["/data"].

(** A list file whose second line does not fit into the buffer of the
    scanner. *)
Definition longLine : string := repeatByte (Z.to_nat MaxScanTokenSize) "a".

Definition cleanConfig : Config := mkConfig "md5" false true "list.txt" 10 ["del.txt"].

(** A list of bare paths, as a user may write it by hand. *)
Definition barePaths : list string := ["/data/B"; "/data/old copy/B"].

(** * Part II: the proofs *)

(** ** Facts on [filter] *)

Section filter_facts.
Context {A : Type} (P : A → Prop) `{∀ x, Decision (P x)}.

Lemma filter_none (l : list A) : (∀ x, x ∈ l → ¬ P x) → filter P l = [].
Proof.
  induction l as [| a l IH]; intros Hl; [done |].
  rewrite filter_cons_False by (apply Hl; left).
  apply IH. intros x Hx. apply Hl. by right.
Qed.

Lemma filter_all (l : list A) : (∀ x, x ∈ l → P x) → filter P l = l.
Proof.
  induction l as [| a l IH]; intros Hl; [done |].
  rewrite filter_cons_True by (apply Hl; left).
  f_equal. apply IH. intros x Hx. apply Hl. by right.
Qed.

Lemma filter_ext_elem (Q : A → Prop) `{∀ x, Decision (Q x)} (l : list A) :
  (∀ x, x ∈ l → P x ↔ Q x) → filter P l = filter Q l.
Proof.
  induction l as [| a l IH]; intros Hl; [done |].
  rewrite !filter_cons.
  rewrite IH by (intros x Hx; apply Hl; by right).
  assert (P a ↔ Q a) as Ha by (apply Hl; left).
  destruct (decide (P a)), (decide (Q a)); tauto.
Qed.
End filter_facts.

(** ** Partitions *)

Section partition.
Context {A K : Type} `{Countable K} (key : A → K).

Lemma bucket_app k (l1 l2 : list A) :
  bucket key k (l1 ++ l2) = bucket key k l1 ++ bucket key k l2.
Proof. apply filter_app. Qed.

Lemma bucket_key k (l : list A) x : x ∈ bucket key k l → key x = k.
Proof. unfold bucket. rewrite list_elem_of_filter. tauto. Qed.

Lemma bucket_elem k (l : list A) x : x ∈ bucket key k l → x ∈ l.
Proof. unfold bucket. rewrite list_elem_of_filter. tauto. Qed.

Lemma bucket_nonempty (l : list A) x : x ∈ l → bucket key (key x) l ≠ [].
Proof.
  intros Hx Hnil.
  assert (x ∈ bucket key (key x) l) as Hin
    by (unfold bucket; rewrite list_elem_of_filter; done).
  rewrite Hnil in Hin. by apply not_elem_of_nil in Hin.
Qed.

Lemma occurrences_pos (l : list A) x : x ∈ l → (0 < occurrences key (key x) l)%nat.
Proof.
  intros Hx. unfold occurrences.
  pose proof (bucket_nonempty l x Hx).
  destruct (bucket key (key x) l); [done | simpl; lia].
Qed.

Lemma snoc_not_nil (l : list A) x : l ++ [x] ≠ [].
Proof. by destruct l. Qed.

Lemma is_index_nil : is_index key ∅ [].
Proof. intros k. by rewrite lookup_empty. Qed.

Lemma is_index_snoc m (l : list A) x :
  is_index key m l → is_index key (appendAt key m x) (l ++ [x]).
Proof.
  intros Hm k. unfold appendAt.
  rewrite bucket_app. destruct (decide (key x = k)) as [<- | Hne].
  - rewrite lookup_insert_eq, Hm.
    assert (bucket key (key x) [x] = [x]) as ->
      by (unfold bucket; rewrite filter_cons_True by done; done).
    rewrite (decide_False (P := _ ++ [x] = [])) by apply snoc_not_nil.
    by case_decide as Hb; [rewrite Hb |].
  - rewrite lookup_insert_ne by done. rewrite Hm.
    assert (bucket key k [x] = []) as ->
      by (unfold bucket; rewrite filter_cons_False by done; done).
    by rewrite app_nil_r.
Qed.

Lemma is_index_foldl (l : list A) : is_index key (foldl (appendAt key) ∅ l) l.
Proof.
  induction l as [| x l IH] using rev_ind; [apply is_index_nil |].
  rewrite foldl_app. simpl. by apply is_index_snoc.
Qed.

Lemma is_index_lookup m (l : list A) k v :
  is_index key m l → m !! k = Some v → v = bucket key k l ∧ v ≠ [].
Proof.
  intros Hm Hk. rewrite Hm in Hk. case_decide; [done |].
  by injection Hk as <-.
Qed.

(** Taking one class out of the index and out of the list. *)
Lemma is_index_delete m (l : list A) k v :
  is_index key (<[k:=v]> m) l → m !! k = None →
  is_index key m (filter (λ x, key x ≠ k) l).
Proof.
  intros Hm Hk j. destruct (decide (j = k)) as [-> | Hne].
  - rewrite Hk. rewrite decide_True; [done |].
    unfold bucket. rewrite list_filter_filter.
    apply filter_none. intros x _ [? ?]. done.
  - specialize (Hm j). rewrite lookup_insert_ne in Hm by done. rewrite Hm.
    assert (bucket key j (filter (λ x, key x ≠ k) l) = bucket key j l) as ->;
      [| done].
    unfold bucket. rewrite list_filter_filter. apply list_filter_iff.
    intros x. split; [tauto | intros <-; done].
Qed.

(** The classes of an index, in any order and restricted to the keys that
    satisfy [Q], are the records of the list whose key satisfies [Q]. *)
Lemma index_concat (Q : K → Prop) `{∀ k, Decision (Q k)} m (l : list A) :
  is_index key m l →
  concat ((filter (λ kv : K * list A, Q kv.1) (map_to_list m)).*2)
    ≡ₚ filter (λ x, Q (key x)) l.
Proof.
  revert l. induction m as [| k v m Hk _ IH] using map_first_key_ind; intros l Hm.
  - rewrite map_to_list_empty. simpl.
    symmetry. apply Permutation_nil_r. apply filter_none.
    intros x Hx _. specialize (Hm (key x)). rewrite lookup_empty in Hm.
    case_decide as Hb; [| done]. by apply (bucket_nonempty l x).
  - rewrite map_to_list_insert by done.
    pose proof (is_index_lookup _ _ k v Hm (lookup_insert_eq _ _ _)) as [Hv Hne].
    pose proof (IH _ (is_index_delete _ _ _ _ Hm Hk)) as IH'.
    rewrite <- (filter_app_complement (λ x, key x = k) l) at 1.
    rewrite filter_app. fold (bucket key k l). rewrite <- Hv.
    rewrite filter_cons. simpl. destruct (decide (Q k)) as [HQ | HQ].
    + rewrite fmap_cons. simpl. rewrite IH'.
      apply Permutation_app; [| done].
      rewrite filter_all; [done |].
      intros x Hx. rewrite Hv in Hx. by rewrite (bucket_key _ _ _ Hx).
    + rewrite IH'. rewrite (filter_none (λ x, Q (key x)) v); [done |].
      intros x Hx. rewrite Hv in Hx. by rewrite (bucket_key _ _ _ Hx).
Qed.

Lemma occurrences_Permutation k (l1 l2 : list A) :
  l1 ≡ₚ l2 → occurrences key k l1 = occurrences key k l2.
Proof. intros Hp. unfold occurrences, bucket. by rewrite Hp. Qed.

(** Keeping the records whose class has two members or more keeps such a
    class whole and empties the others. *)
Lemma bucket_repeated k (l : list A) :
  bucket key k (repeated key l)
  = if decide (2 ≤ occurrences key k l)%nat then bucket key k l else [].
Proof.
  unfold bucket at 1, repeated. rewrite list_filter_filter. case_decide as Hn.
  - apply list_filter_iff. intros x. split; [tauto |]. by intros <-.
  - apply filter_none. intros x _ [<- ?]. done.
Qed.

Lemma occurrences_repeated k (l : list A) :
  occurrences key k (repeated key l)
  = if decide (2 ≤ occurrences key k l)%nat then occurrences key k l else 0%nat.
Proof. unfold occurrences at 1. rewrite bucket_repeated. by case_decide. Qed.

Lemma elem_of_repeated (l : list A) x :
  x ∈ repeated key l ↔ (2 ≤ occurrences key (key x) l)%nat ∧ x ∈ l.
Proof. unfold repeated. by rewrite list_elem_of_filter. Qed.

(** Selecting the repeated records twice selects nothing new. *)
Lemma repeated_repeated (l : list A) : repeated key (repeated key l) = repeated key l.
Proof.
  unfold repeated at 1. apply filter_all. intros x Hx.
  rewrite occurrences_repeated. apply elem_of_repeated in Hx as [Hx _].
  by rewrite decide_True.
Qed.

Lemma repeated_Permutation (l1 l2 : list A) :
  l1 ≡ₚ l2 → repeated key l1 ≡ₚ repeated key l2.
Proof.
  intros Hp. unfold repeated. rewrite <- Hp.
  apply reflexive_eq, list_filter_iff. intros x.
  by rewrite (occurrences_Permutation (key x) _ _ Hp).
Qed.
End partition.

(** ** SizeGrouper *)

Lemma sizeGroups_index files : is_index Size (sizeGroups files) files.
Proof. apply (is_index_foldl Size). Qed.

Lemma sizeSweep_acc visit (group : gmap Z FileInfos) acc :
  (foldl (λ '(group, newFiles) '(k, v),
            if decide (length v = 1%nat) then (delete k group, newFiles)
            else (group, newFiles ++ v))
         (group, acc) visit).2
  = acc ++ concat ((filter (λ kv : Z * FileInfos, length kv.2 ≠ 1%nat) visit).*2).
Proof.
  revert group acc. induction visit as [| [k v] visit IH]; intros group acc.
  - simpl. by rewrite app_nil_r.
  - simpl. rewrite filter_cons. simpl.
    destruct (decide (length v = 1%nat)) as [Hv | Hv]; rewrite IH.
    + by rewrite decide_False by (by intros ?).
    + rewrite decide_True by done. rewrite fmap_cons. simpl. by rewrite app_assoc.
Qed.

Lemma groupBySize_on_multiset visit files :
  visit ≡ₚ map_to_list (sizeGroups files) →
  groupBySize_on visit files ≡ₚ repeated Size files.
Proof.
  intros Hvisit. destruct files as [| f0 files']; [done |].
  set (files := f0 :: files') in *.
  unfold groupBySize_on. fold files. unfold sizeSweep.
  change (match files with [] => [] | _ => ?x end) with x.
  rewrite sizeSweep_acc. simpl. rewrite Hvisit.
  pose proof (sizeGroups_index files) as Hidx.
  rewrite (filter_ext_elem _
             (λ kv : Z * FileInfos, occurrences Size kv.1 files ≠ 1%nat)).
  - pose proof (index_concat Size (λ k, occurrences Size k files ≠ 1%nat)
                  _ _ Hidx) as Hcat.
    cbn beta in Hcat. rewrite Hcat.
    apply reflexive_eq, filter_ext_elem. intros f Hf.
    pose proof (occurrences_pos Size files f Hf). lia.
  - intros [k v] Hkv. apply elem_of_map_to_list in Hkv.
    destruct (is_index_lookup Size _ _ _ _ Hidx Hkv) as [-> _]. done.
Qed.

Lemma groupBySize_run_multiset files out :
  groupBySize_run files out → out ≡ₚ repeated Size files.
Proof. intros (visit & Hvisit & ->). by apply groupBySize_on_multiset. Qed.

Lemma groupBySize_run_default files : groupBySize_run files (groupBySize files).
Proof. by exists (map_to_list (sizeGroups files)). Qed.

(** C2.  For every input, every run of groupBySize returns a sequence in
    which no size value occurs exactly once; every record of the output is a
    record of the input (with its size); the output is, as a multiset, the
    input records whose size occurs at least twice in the input; and the
    empty input gives the empty output (the function has no error result). *)
Theorem groupBySize_spec (files out : FileInfos) :
  groupBySize_run files out →
  (∀ f, f ∈ out → occurrences Size (Size f) out ≠ 1%nat)
  ∧ (∀ f, f ∈ out → f ∈ files)
  ∧ out ≡ₚ filter (λ f, (2 ≤ occurrences Size (Size f) files)%nat) files
  ∧ (files = [] → out = []).
Proof.
  intros Hrun. pose proof (groupBySize_run_multiset _ _ Hrun) as Hout.
  split_and!.
  - intros f Hf. rewrite (occurrences_Permutation Size _ _ _ Hout).
    rewrite occurrences_repeated. rewrite Hout in Hf.
    apply elem_of_repeated in Hf as [Hf _].
    rewrite decide_True by done. lia.
  - intros f Hf. rewrite Hout in Hf. by apply elem_of_repeated in Hf as [_ ?].
  - exact Hout.
  - intros ->. by apply Permutation_nil_r in Hout.
Qed.

(** C10.  groupBySize is idempotent up to multiset equality: a run on the
    output of a run returns the records of that output again. *)
Theorem groupBySize_idempotent (files out out' : FileInfos) :
  groupBySize_run files out → groupBySize_run out out' → out' ≡ₚ out.
Proof.
  intros Hrun Hrun'.
  pose proof (groupBySize_run_multiset _ _ Hrun) as Hout.
  rewrite (groupBySize_run_multiset _ _ Hrun').
  rewrite (repeated_Permutation Size _ _ Hout).
  by rewrite repeated_repeated.
Qed.

Example groupBySize_scenario : groupBySize scenario = [fileA; fileB; fileC].
Proof. vm_compute. reflexivity. Qed.

(** The theorem at the scenario of the specification. *)
Lemma groupBySize_spec_witness :
  (∀ f, f ∈ groupBySize scenario
        → occurrences Size (Size f) (groupBySize scenario) ≠ 1%nat)
  ∧ (∀ f, f ∈ groupBySize scenario → f ∈ scenario)
  ∧ groupBySize scenario
      ≡ₚ filter (λ f, (2 ≤ occurrences Size (Size f) scenario)%nat) scenario
  ∧ (scenario = [] → groupBySize scenario = []).
Proof.
  apply (groupBySize_spec scenario (groupBySize scenario)).
  exists (map_to_list (sizeGroups scenario)). split; reflexivity.
Defined.

Lemma groupBySize_idempotent_witness :
  groupBySize (groupBySize scenario) ≡ₚ groupBySize scenario.
Proof.
  apply (groupBySize_idempotent scenario).
  - exists (map_to_list (sizeGroups scenario)). split; reflexivity.
  - exists (map_to_list (sizeGroups (groupBySize scenario))). split; reflexivity.
Defined.

(** ** HashGrouper *)

Lemma bucket_hashed h files :
  bucket Hash h (hashed files)
  = if decide (h ≠ "") then bucket Hash h files else [].
Proof.
  unfold bucket, hashed. rewrite list_filter_filter. case_decide as Hh.
  - apply list_filter_iff. intros f. split; [tauto |]. by intros <-.
  - apply filter_none. intros f _ [<- ?]. done.
Qed.

Lemma hashed_app l1 l2 : hashed (l1 ++ l2) = hashed l1 ++ hashed l2.
Proof. apply filter_app. Qed.

Lemma is_count_snoc (c : gmap string Z) (l : FileInfos) f :
  is_count Hash c l →
  is_count Hash (<[Hash f := default 0 (c !! Hash f) + 1]> c) (l ++ [f]).
Proof.
  intros Hc k. unfold occurrences. rewrite bucket_app.
  destruct (decide (Hash f = k)) as [<- | Hne].
  - rewrite lookup_insert_eq, Hc.
    assert (bucket Hash (Hash f) [f] = [f]) as ->
      by (unfold bucket; rewrite filter_cons_True by done; done).
    rewrite (decide_False (P := _ ++ [f] = [])) by apply snoc_not_nil.
    rewrite length_app. simpl. unfold occurrences.
    case_decide as Hb; [rewrite Hb |]; simpl; f_equal; lia.
  - rewrite lookup_insert_ne by done. rewrite Hc.
    assert (bucket Hash k [f] = []) as ->
      by (unfold bucket; rewrite filter_cons_False by done; done).
    by rewrite app_nil_r.
Qed.

(** After the first loop, [group] holds the classes of the records that
    carry a hash and [counts] their sizes. *)
Lemma hashGroups_index files :
  is_index Hash (hashGroups files).1 (hashed files)
  ∧ is_count Hash (hashGroups files).2 (hashed files).
Proof.
  unfold hashGroups.
  induction files as [| f files IH] using rev_ind.
  - split; intros k; simpl; by rewrite lookup_empty.
  - rewrite foldl_app. simpl.
    destruct (foldl _ _ files) as [group counts]. simpl in IH.
    destruct IH as [Hg Hc]. rewrite hashed_app. unfold hashed at 2 4.
    case_decide as Hf.
    + rewrite filter_cons_True, filter_nil by done. simpl. split.
      * apply (is_index_snoc Hash _ _ f Hg).
      * by apply is_count_snoc.
    + rewrite filter_cons_False by (intros Hne; by apply Hne).
      rewrite filter_nil, app_nil_r. by split.
Qed.

Lemma hashSweep_lookup visit (group : DupList) h :
  hashSweep visit group !! h
  = if decide ((h, 1) ∈ visit) then None else group !! h.
Proof.
  unfold hashSweep. revert group.
  induction visit as [| [k v] visit IH]; intros group; cbn [foldl].
  - rewrite decide_False; [done | apply not_elem_of_nil].
  - rewrite IH. destruct (decide ((h, 1) ∈ visit)) as [Hin | Hin].
    + rewrite decide_True; [done | by right].
    + destruct (decide (v = 1)) as [-> | Hv].
      * destruct (decide (k = h)) as [-> | Hk].
        -- rewrite decide_True by left. apply lookup_delete_eq.
        -- rewrite lookup_delete_ne by done. rewrite decide_False; [done |].
           intros Hc. apply elem_of_cons in Hc as [Hc | Hc]; [congruence | done].
      * rewrite decide_False; [done |].
        intros Hc. apply elem_of_cons in Hc as [Hc | Hc]; [congruence | done].
Qed.

(** The result of a run, key by key: a hash is bound when it is not empty
    and at least two records of the input carry it, and then to these
    records in the order of the input.  The order in which the second loop
    visits [counts] does not show. *)
Lemma groupByHash_on_lookup visit files h :
  visit ≡ₚ map_to_list (hashGroups files).2 →
  groupByHash_on visit files !! h
  = if decide (h ≠ "" ∧ (2 ≤ occurrences Hash h files)%nat)
    then Some (bucket Hash h files) else None.
Proof.
  intros Hvisit. destruct files as [| f0 files'].
  { simpl. rewrite lookup_empty. rewrite decide_False; [done |].
    unfold occurrences. simpl. lia. }
  set (files := f0 :: files') in *.
  change (groupByHash_on visit files)
    with (hashSweep visit (hashGroups files).1).
  rewrite hashSweep_lookup.
  destruct (hashGroups_index files) as [Hg Hc].
  specialize (Hg h). specialize (Hc h). rewrite Hg.
  assert ((h, 1) ∈ visit ↔ (hashGroups files).2 !! h = Some 1) as Hin
    by (rewrite Hvisit; apply elem_of_map_to_list).
  rewrite Hc in Hin. unfold occurrences in *. rewrite bucket_hashed in *.
  destruct (decide (h ≠ "")) as [Hh | Hh].
  - destruct (decide (bucket Hash h files = [])) as [Hb | Hb].
    + rewrite Hb. simpl.
      rewrite (decide_False (P := _ ∧ _)) by (intros [_ ?]; lia).
      by destruct (decide ((h, 1) ∈ visit)).
    + destruct (decide ((h, 1) ∈ visit)) as [H1 | H1].
      * apply Hin in H1. rewrite (decide_False (P := _ ∧ _)); [done |].
        intros [_ ?]. injection H1 as H1. lia.
      * rewrite (decide_True (P := _ ∧ _)); [done |]. split; [done |].
        destruct (bucket Hash h files) as [| a [| b l]]; simpl; try lia; try done.
        exfalso. apply H1, Hin. done.
  - rewrite (decide_True (P := [] = [])) by done.
    rewrite (decide_False (P := _ ∧ _)) by tauto. by destruct (decide ((h, 1) ∈ visit)).
Qed.

Lemma groupByHash_run_lookup files out h :
  groupByHash_run files out →
  out !! h = if decide (h ≠ "" ∧ (2 ≤ occurrences Hash h files)%nat)
             then Some (bucket Hash h files) else None.
Proof. intros (visit & Hvisit & ->). by apply groupByHash_on_lookup. Qed.

(** A run has one possible result. *)
Lemma groupByHash_run_unique files out :
  groupByHash_run files out ↔ out = groupByHash files.
Proof.
  split.
  - intros Hrun. apply map_eq. intros h.
    rewrite (groupByHash_run_lookup _ _ _ Hrun).
    unfold groupByHash. by rewrite groupByHash_on_lookup.
  - intros ->. by exists (map_to_list (hashGroups files).2).
Qed.

(** Only the records that carry a hash count. *)
Lemma groupByHash_hashed files1 files2 :
  hashed files1 = hashed files2 → groupByHash files1 = groupByHash files2.
Proof.
  intros Heq. apply map_eq. intros h. unfold groupByHash.
  rewrite !groupByHash_on_lookup by done.
  pose proof (bucket_hashed h files1) as H1.
  pose proof (bucket_hashed h files2) as H2. rewrite Heq in H1.
  rewrite H1 in H2. unfold occurrences.
  destruct (decide (h ≠ "")) as [Hh | Hh]; [| by rewrite !decide_False by tauto].
  by rewrite H2.
Qed.

(** The records with a hash that at least two records carry. *)
Lemma groupByHash_run_index files out :
  groupByHash_run files out →
  is_index Hash out
    (filter (λ f, Hash f ≠ "" ∧ (2 ≤ occurrences Hash (Hash f) files)%nat) files).
Proof.
  intros Hrun h. rewrite (groupByHash_run_lookup _ _ _ Hrun).
  assert (bucket Hash h
            (filter (λ f, Hash f ≠ "" ∧ (2 ≤ occurrences Hash (Hash f) files)%nat)
               files)
          = if decide (h ≠ "" ∧ (2 ≤ occurrences Hash h files)%nat)
            then bucket Hash h files else []) as ->.
  { unfold bucket at 1. rewrite list_filter_filter. case_decide as Hh.
    - apply list_filter_iff. intros f. split; [tauto |]. by intros <-.
    - apply filter_none. intros f _ [<- ?]. done. }
  case_decide as Hh; [| done].
  rewrite decide_False; [done |]. destruct Hh as [_ Hh]. unfold occurrences in Hh.
  intros Hb. rewrite Hb in Hh. simpl in Hh. lia.
Qed.

(** C1.  For every input, every group of a result of groupByHash has at
    least two records; the records of all groups together are, as a
    multiset, the input records that carry a hash occurring at least twice
    among the input records; and no record of the result has an absent
    (empty) hash. *)
Theorem groupByHash_spec (files : FileInfos) (out : DupList) :
  groupByHash_run files out →
  (∀ h g, out !! h = Some g → (2 ≤ length g)%nat)
  ∧ records out
      ≡ₚ filter (λ f, Hash f ≠ "" ∧ (2 ≤ occurrences Hash (Hash f) files)%nat)
           files
  ∧ (∀ h g f, out !! h = Some g → f ∈ g → Hash f ≠ "").
Proof.
  intros Hrun. split_and!.
  - intros h g Hg. rewrite (groupByHash_run_lookup _ _ _ Hrun) in Hg.
    case_decide as Hh; [| done]. injection Hg as <-. apply Hh.
  - pose proof (index_concat Hash (λ _, True) _ _ (groupByHash_run_index _ _ Hrun))
      as Hcat.
    rewrite !filter_all in Hcat by done. exact Hcat.
  - intros h g f Hg Hf. rewrite (groupByHash_run_lookup _ _ _ Hrun) in Hg.
    case_decide as Hh; [| done]. injection Hg as <-.
    rewrite (bucket_key Hash _ _ _ Hf). apply Hh.
Qed.

Example groupByHash_scenario :
  groupByHash scenarioHashed
  = {[ "336311a016184326ddf9893f9df8cb6c" :=
         [mkFileInfo "/data/A" 10 "336311a016184326ddf9893f9df8cb6c";
          mkFileInfo "/data/B" 10 "336311a016184326ddf9893f9df8cb6c"] ]}.
Proof. vm_compute. reflexivity. Qed.

(** The theorem at the scenario of the specification. *)
Lemma groupByHash_spec_witness :
  (∀ h g, groupByHash scenarioHashed !! h = Some g → (2 ≤ length g)%nat)
  ∧ records (groupByHash scenarioHashed)
      ≡ₚ filter (λ f, Hash f ≠ ""
                      ∧ (2 ≤ occurrences Hash (Hash f) scenarioHashed)%nat)
           scenarioHashed
  ∧ (∀ h g f, groupByHash scenarioHashed !! h = Some g → f ∈ g → Hash f ≠ "").
Proof.
  apply (groupByHash_spec scenarioHashed (groupByHash scenarioHashed)).
  exists (map_to_list (hashGroups scenarioHashed).2). split; reflexivity.
Defined.

(** ** The digest selector *)

Lemma lower_lower c : lower (lower c) = lower c.
Proof. by destruct c as [[] [] [] [] [] [] [] []]. Qed.

Lemma ToLower_idem s : ToLower (ToLower s) = ToLower s.
Proof. induction s as [| c s IH]; simpl; [done |]. by rewrite lower_lower, IH. Qed.

Lemma newHash_ToLower hashName : newHash (ToLower hashName) = newHash hashName.
Proof. unfold newHash. by rewrite ToLower_idem. Qed.

Example newHash_upper : newHash "SHA256" = SHA256.
Proof. reflexivity. Qed.

Example newHash_mixed : newHash "Sha1" = SHA1 ∧ newHash "sHa512" = SHA512 ∧ newHash "Md5" = MD5.
Proof. by split_and!. Qed.

Example newHash_unknown : newHash "crc32" = MD5 ∧ newHash "" = MD5 ∧ newHash "sha-256" = MD5.
Proof. by split_and!. Qed.

(** The switch of newHash, in terms of the lower-cased name. *)
Lemma newHash_switch (hashName : string) :
  (newHash hashName = SHA1 ↔ ToLower hashName = "sha1")
  ∧ (newHash hashName = SHA256 ↔ ToLower hashName = "sha256")
  ∧ (newHash hashName = SHA512 ↔ ToLower hashName = "sha512")
  ∧ (ToLower hashName = "md5" → newHash hashName = MD5)
  ∧ (ToLower hashName ∉ ["md5"; "sha1"; "sha256"; "sha512"] →
     newHash hashName = MD5)
  ∧ (∀ other, ToLower other = ToLower hashName → newHash other = newHash hashName).
Proof.
  unfold newHash. split_and!.
  - repeat case_decide; split; congruence.
  - repeat case_decide; split; congruence.
  - repeat case_decide; split; congruence.
  - intros ->. done.
  - intros Hout. rewrite !not_elem_of_cons in Hout.
    destruct Hout as (_ & ? & ? & ? & _). by rewrite !decide_False.
  - intros other ->. done.
Qed.

(** The same letter lower-cases to the same byte. *)
Lemma sameLetter_lower a b : sameLetter a b = true → lower a = lower b.
Proof.
  unfold sameLetter, lower.
  assert (a = ascii_of_nat (nat_of_ascii a)) as Ha
    by (symmetry; apply ascii_nat_embedding).
  assert (b = ascii_of_nat (nat_of_ascii b)) as Hb
    by (symmetry; apply ascii_nat_embedding).
  remember (nat_of_ascii a) as x eqn:Ex. remember (nat_of_ascii b) as y eqn:Ey.
  clear Ex Ey. cbv zeta.
  rewrite !orb_true_iff, !andb_true_iff, !Nat.eqb_eq, !Nat.leb_le.
  intros [[Hxy | [[H1 H2] Hxy]] | [[H1 H2] Hxy]]; subst.
  - done.
  - rewrite (proj2 (Nat.leb_le 65 x)), (proj2 (Nat.leb_le x 90)) by done.
    destruct (Nat.leb_spec (x + 32) 90) as [Hle | Hgt]; [lia |].
    by rewrite andb_false_r.
  - rewrite (proj2 (Nat.leb_le 65 y)), (proj2 (Nat.leb_le y 90)) by done.
    destruct (Nat.leb_spec (y + 32) 90) as [Hle | Hgt]; [lia |].
    by rewrite andb_false_r.
Qed.

(** A byte and what it lower-cases to are the same letter. *)
Lemma lower_sameLetter a : sameLetter a (lower a) = true.
Proof. by destruct a as [[] [] [] [] [] [] [] []]. Qed.

Lemma caseVariant_ToLower s t : caseVariant s t = true → ToLower s = ToLower t.
Proof.
  revert t. induction s as [| a s IH]; intros [| b t]; simpl; try done.
  intros [Hab Hst]%andb_true_iff. by rewrite (sameLetter_lower a b Hab), (IH t Hst).
Qed.

Lemma ToLower_caseVariant s : caseVariant s (ToLower s) = true.
Proof.
  induction s as [| a s IH]; [done |]. simpl. by rewrite lower_sameLetter, IH.
Qed.

(** For a name [t] without upper-case letters, the case variants of [t]
    are the names that lower-case to [t]. *)
Lemma caseVariant_iff s t :
  ToLower t = t → caseVariant s t = true ↔ ToLower s = t.
Proof.
  intros Ht. split.
  - intros Hst. by rewrite (caseVariant_ToLower s t Hst).
  - intros <-. apply ToLower_caseVariant.
Qed.

(** C9.  newHash matches the four names without regard to the case of their
    letters: a name selects SHA-1, SHA-256 or SHA-512 exactly when it is a
    case variant of sha1, sha256 or sha512; every case variant of md5
    selects MD5; every name that is a case variant of none of the four names
    selects MD5 as well (the function has no error result); and two names
    that are case variants of each other select the same digest. *)
Theorem newHash_spec (hashName : string) :
  (newHash hashName = SHA1 ↔ caseVariant hashName "sha1" = true)
  ∧ (newHash hashName = SHA256 ↔ caseVariant hashName "sha256" = true)
  ∧ (newHash hashName = SHA512 ↔ caseVariant hashName "sha512" = true)
  ∧ (caseVariant hashName "md5" = true → newHash hashName = MD5)
  ∧ ((∀ known, known ∈ ["md5"; "sha1"; "sha256"; "sha512"]
               → caseVariant hashName known = false) →
     newHash hashName = MD5)
  ∧ (∀ other, caseVariant other hashName = true
              → newHash other = newHash hashName).
Proof.
  destruct (newHash_switch hashName) as (H1 & H256 & H512 & Hmd5 & Hout & Hsame).
  split_and!.
  - by rewrite H1, caseVariant_iff.
  - by rewrite H256, caseVariant_iff.
  - by rewrite H512, caseVariant_iff.
  - intros Hv. apply Hmd5. by apply caseVariant_iff in Hv.
  - intros Hnone. apply Hout. intros Hin.
    specialize (Hnone (ToLower hashName) Hin).
    by rewrite ToLower_caseVariant in Hnone.
  - intros other Hv. apply Hsame. by apply caseVariant_ToLower.
Qed.

Example newHash_case_variants :
  caseVariant "SHA256" "sha256" = true ∧ caseVariant "Sha1" "sha1" = true
  ∧ caseVariant "sha-256" "sha256" = false ∧ caseVariant "sha1" "sha256" = false
  ∧ caseVariant "shA512" "sha512" = true ∧ caseVariant "MD5" "md5" = true.
Proof. by split_and!. Qed.

(** ** Cleaner *)

Lemma errors_Join_None errs : errors_Join errs = None ↔ errs = [].
Proof. by destruct errs. Qed.

Section cleaner.
Context {World : Type} `{Remover World}.

(** The loop, from any state: the counter grows by the number of successful
    attempts and the failures are appended in the order of the paths. *)
Lemma cleanLoop_attempts files (w : World) n errs :
  foldl cleanStep (w, n, errs) files
  = ((attempts files w).2,
     n + Z.of_nat (length (filter succeeded (attempts files w).1)),
     errs ++ omap failure (attempts files w).1).
Proof.
  revert w n errs. induction files as [| file files IH]; intros w n errs.
  - simpl. by rewrite Z.add_0_r, app_nil_r.
  - cbn [foldl attempts]. destruct (os_Remove file w) as [w1 err] eqn:Hrm.
    assert (cleanStep (w, n, errs) file
            = match err with
              | Some e => (w1, n, errs ++ [cleanError file e])
              | None => (w1, n + 1, errs)
              end) as -> by (unfold cleanStep; by rewrite Hrm).
    destruct (attempts files w1) as [rest w2] eqn:Hatt.
    cbn [fst snd]. rewrite filter_cons. unfold succeeded at 1. cbn [fst snd omap].
    destruct err as [e |]; rewrite IH, Hatt; cbn [fst snd].
    + rewrite decide_False by done. unfold failure at 2. cbn [fst snd fmap option_fmap option_map].
      by rewrite <- app_assoc.
    + rewrite decide_True by done. unfold failure at 2. cbn [fst snd fmap option_fmap option_map length].
      do 2 f_equal. lia.
Qed.

Lemma attempts_paths files (w : World) : (attempts files w).1.*1 = files.
Proof.
  revert w. induction files as [| file files IH]; intros w; [done |].
  cbn [attempts]. destruct (os_Remove file w) as [w1 err].
  specialize (IH w1). destruct (attempts files w1) as [rest w2].
  cbn [fst] in *. rewrite fmap_cons. cbn [fst]. by f_equal.
Qed.

Lemma omap_failure_nil (att : list (string * option error)) :
  omap failure att = [] ↔ ∀ a, a ∈ att → a.2 = None.
Proof.
  induction att as [| [p [e |]] att IH]; simpl.
  - split; [intros _ a Ha; by apply not_elem_of_nil in Ha | done].
  - split; [done |]. intros Hall. specialize (Hall (p, Some e)).
    discriminate Hall. left.
  - rewrite IH. split.
    + intros Hall a Ha. apply elem_of_cons in Ha as [-> | Ha]; [done | by apply Hall].
    + intros Hall a Ha. apply Hall. by right.
Qed.

(** C3.  Clean tries every path of the list, in order and whatever happened
    to the earlier ones: the counter it returns is the number of successful
    deletions, the joined error is made of one entry (naming the path and
    the error) per failed deletion and is nil exactly when every deletion
    succeeded, and the empty list returns (0, nil) and leaves the world as
    it is. *)
Theorem Clean_spec (files : list string) (w : World) :
  Clean files w
  = ((attempts files w).2,
     (Z.of_nat (length (filter (λ a, a.2 = None) (attempts files w).1)),
      errors_Join (omap (λ a, cleanError a.1 <$> a.2) (attempts files w).1)))
  ∧ (attempts files w).1.*1 = files
  ∧ ((Clean files w).2.2 = None ↔ ∀ a, a ∈ (attempts files w).1 → a.2 = None)
  ∧ Clean [] w = (w, (0, None)).
Proof.
  assert (Clean files w
          = ((attempts files w).2,
             (Z.of_nat (length (filter succeeded (attempts files w).1)),
              errors_Join (omap failure (attempts files w).1)))) as HClean.
  { destruct files as [| file files']; [done |].
    unfold Clean, cleanLoop. by rewrite cleanLoop_attempts. }
  split_and!.
  - exact HClean.
  - apply attempts_paths.
  - rewrite HClean. simpl. rewrite errors_Join_None. apply omap_failure_nil.
  - done.
Qed.
End cleaner.

Example Clean_one_missing :
  Clean ["/d/a"; "/d/gone"; "/d/b"] ({["/d/a"; "/d/b"; "/d/c"]} : gset string)
  = ({["/d/c"]},
     (2, Some "文件/d/gone清理失败: remove /d/gone: no such file or directory")).
Proof. vm_compute. reflexivity. Qed.

(** ** The list file *)

(** *** Strings *)

Lemma append_cons x (a b : string) : String x a +:+ b = String x (a +:+ b).
Proof. reflexivity. Qed.

Lemma append_nil_l (b : string) : "" +:+ b = b.
Proof. reflexivity. Qed.

Lemma newline_append (b : string) : newline +:+ b = String LF b.
Proof. reflexivity. Qed.

Lemma tab_append (b : string) : tab +:+ b = String TAB b.
Proof. reflexivity. Qed.

Lemma append_assoc (a b c : string) : (a +:+ b) +:+ c = a +:+ b +:+ c.
Proof.
  induction a as [| x a IH]; [done |]. rewrite !append_cons. by f_equal.
Qed.

Lemma append_nil_r (a : string) : a +:+ "" = a.
Proof. induction a as [| x a IH]; [done |]. rewrite append_cons. by f_equal. Qed.

Lemma hasByte_append c a b : hasByte c (a +:+ b) = hasByte c a || hasByte c b.
Proof.
  induction a as [| x a IH]; [done |]. rewrite append_cons. simpl.
  by destruct (decide (x = c)).
Qed.

Lemma strings_Split_nonempty s sep : strings_Split s sep ≠ [].
Proof.
  induction s as [| c s IH]; simpl; [done |].
  destruct (decide (c = sep)); [done |]. by destruct (strings_Split s sep).
Qed.

(** A line without the separator is one piece: a bare path. *)
Lemma strings_Split_bare s sep : hasByte sep s = false → strings_Split s sep = [s].
Proof.
  induction s as [| c s IH]; simpl; [done |].
  destruct (decide (c = sep)); [done |]. intros Hs. by rewrite IH.
Qed.

(** The first piece ends at the first separator. *)
Lemma strings_Split_first a b sep :
  hasByte sep a = false →
  strings_Split (a +:+ String sep b) sep = a :: strings_Split b sep.
Proof.
  induction a as [| c a IH]; [rewrite append_nil_l | rewrite append_cons]; simpl.
  - intros _. by destruct (decide (sep = sep)).
  - destruct (decide (c = sep)); [done |]. intros Ha. by rewrite IH.
Qed.

Lemma dropCR_append a b : b ≠ "" → dropCR (a +:+ b) = a +:+ dropCR b.
Proof.
  intros Hb. induction a as [| c a IH]; [done |].
  rewrite !append_cons, <- IH. simpl. destruct (a +:+ b) eqn:Hab; [| done].
  destruct a; [| done]. rewrite append_nil_l in Hab. done.
Qed.

Lemma dropCR_cons c b : b ≠ "" → dropCR (String c b) = String c (dropCR b).
Proof. intros Hb. by destruct b. Qed.

Lemma rawLines_line a rest :
  hasByte LF a = false → rawLines (a +:+ newline +:+ rest) = a :: rawLines rest.
Proof.
  rewrite newline_append.
  induction a as [| c a IH]; [rewrite append_nil_l | rewrite append_cons]; simpl.
  - intros _. by destruct (decide (LF = LF)).
  - destruct (decide (c = LF)); [done |]. intros Ha. by rewrite IH.
Qed.

Lemma unlines_cons line lines :
  unlines (line :: lines) = line +:+ newline +:+ unlines lines.
Proof. reflexivity. Qed.

Lemma rawLines_unlines lines :
  (∀ line, line ∈ lines → hasByte LF line = false) →
  rawLines (unlines lines) = lines.
Proof.
  induction lines as [| line lines IH]; intros Hl; [done |].
  rewrite unlines_cons, rawLines_line by (apply Hl; left).
  f_equal. apply IH. intros l Hin. apply Hl. by right.
Qed.

Lemma scanTokens_short lines :
  (∀ line, line ∈ lines → Z.of_nat (String.length line) < MaxScanTokenSize) →
  scanTokens lines = dropCR <$> lines.
Proof.
  induction lines as [| line lines IH]; intros Hl; [done |].
  simpl. rewrite decide_True by (apply Hl; left).
  f_equal. apply IH. intros l Hin. apply Hl. by right.
Qed.

Lemma unlines_app l1 l2 : unlines (l1 ++ l2) = unlines l1 +:+ unlines l2.
Proof.
  induction l1 as [| a l1 IH]; [done |].
  rewrite <- app_comm_cons, !unlines_cons, IH. by rewrite !append_assoc.
Qed.

(** *** Decimal numbers hold no line feed *)

Lemma pretty_N_char_LF x s :
  hasByte LF (String (pretty_N_char x) s) = hasByte LF s.
Proof. unfold pretty_N_char. simpl. by repeat case_match. Qed.

Lemma pretty_N_go_LF x s :
  hasByte LF s = false → hasByte LF (pretty_N_go x s) = false.
Proof.
  revert s. induction (N.lt_wf_0 x) as [x _ IH]; intros s Hs.
  destruct (decide (x = 0)%N) as [-> | Hx]; [by rewrite pretty_N_go_0 |].
  rewrite pretty_N_go_step by lia. apply IH.
  - apply N.div_lt; lia.
  - by rewrite pretty_N_char_LF.
Qed.

Lemma pretty_Z_LF (z : Z) : hasByte LF (pretty z) = false.
Proof.
  assert (∀ p : positive, hasByte LF (pretty p) = false) as Hpos.
  { intros p. unfold pretty, pretty_positive, pretty, pretty_N.
    case_decide; [done |]. by apply pretty_N_go_LF. }
  destruct z as [| p | p]; [done | apply Hpos |].
  unfold pretty, pretty_Z. rewrite hasByte_append. by rewrite Hpos.
Qed.

(** *** Reading *)

Lemma keptPaths_cons line lines :
  keptPaths (line :: lines)
  = if decide (line ≠ splitLine) then firstField line :: keptPaths lines
    else keptPaths lines.
Proof. unfold keptPaths. simpl. by destruct (decide (line ≠ splitLine)). Qed.

Lemma keptPaths_app l1 l2 : keptPaths (l1 ++ l2) = keptPaths l1 ++ keptPaths l2.
Proof. unfold keptPaths. apply omap_app. Qed.

(** The loop of [readList] over the lines of a file never takes its error
    branch: [strings.Split] gives at least one piece. *)
Lemma scanLoop_total f lines delList :
  scanLoop f lines delList = (delList ++ keptPaths lines, None).
Proof.
  revert delList. induction lines as [| line lines IH]; intros delList.
  - simpl. by rewrite app_nil_r.
  - cbn [scanLoop]. rewrite keptPaths_cons.
    destruct (decide (line ≠ splitLine)) as [Hline | Hline]; [| apply IH].
    unfold firstField.
    pose proof (strings_Split_nonempty line TAB) as Hne.
    destruct (strings_Split line TAB) as [| s0 pieces]; [done |].
    rewrite IH. simpl. by rewrite <- app_assoc.
Qed.

(** The only error [readList] returns is that a file cannot be opened. *)
Lemma readFiles_error files (d : Disk) delList paths err :
  readFiles files d delList = (paths, Some err) →
  ∃ f e, f ∈ files ∧ err = openError f e.
Proof.
  revert delList. induction files as [| f files IH]; intros delList; [done |].
  cbn [readFiles]. destruct (d !! f) as [[e | content] |] eqn:Hf.
  - intros [= _ <-]. exists f, e. split; [left | done].
  - rewrite scanLoop_total. intros Hrest. apply IH in Hrest as (f' & e & Hin & ->).
    exists f', e. split; [by right | done].
  - intros [= _ <-]. eexists f, _. split; [left | done].
Qed.

(** A line without a tab is taken whole, as a bare path. *)
Lemma firstField_bare line : hasByte TAB line = false → firstField line = line.
Proof. intros Hl. unfold firstField. by rewrite strings_Split_bare. Qed.

Lemma firstField_tab a b : hasByte TAB a = false → firstField (a +:+ String TAB b) = a.
Proof. intros Ha. unfold firstField. by rewrite strings_Split_first. Qed.

(** C6.  A list file with an empty line between two paths: readList returns
    no error and hands the empty string on as a path.  (The claim asks for an
    input-format error here; the test [len(s) < 1] that guards the error can
    never hold.) *)
Theorem readList_empty_line :
  readList ["del.txt"] {[ "del.txt" := inr listWithEmptyLine ]}
  = (["/d/a"; ""; "/d/b"], None).
Proof. vm_compute. reflexivity. Qed.

(** *** Writing *)

Lemma recordLine_body s : recordLine s = lineBody s +:+ newline.
Proof. unfold recordLine, lineBody. by rewrite !append_assoc. Qed.

Lemma writeRecords_unlines (v : FileInfos) out :
  foldl (λ out s, out +:+ recordLine s) out v = out +:+ unlines (lineBody <$> v).
Proof.
  revert out. induction v as [| s v IH]; intros out.
  - simpl. by rewrite append_nil_r.
  - cbn [foldl]. rewrite IH, fmap_cons, unlines_cons, recordLine_body.
    by rewrite !append_assoc.
Qed.

Lemma writeGroup_unlines out v :
  writeGroup out v = out +:+ unlines (splitLine :: (lineBody <$> v)).
Proof.
  unfold writeGroup. rewrite writeRecords_unlines, unlines_cons.
  by rewrite !append_assoc.
Qed.

Lemma writeGroups_acc (visit : list (string * FileInfos)) out :
  foldl (λ out '(_, v), writeGroup out v) out visit = out +:+ unlines (linesOf visit).
Proof.
  revert out. induction visit as [| [k v] visit IH]; intros out.
  - simpl. by rewrite append_nil_r.
  - cbn [foldl]. rewrite IH, writeGroup_unlines. unfold linesOf.
    rewrite fmap_cons. cbn [concat snd]. rewrite unlines_app.
    by rewrite !append_assoc.
Qed.

Lemma writeGroups_unlines visit : writeGroups visit = unlines (linesOf visit).
Proof. unfold writeGroups. by rewrite writeGroups_acc. Qed.

(** *** The round trip *)

Lemma append_cons_not_nil (a : string) c b : a +:+ String c b ≠ "".
Proof. by destruct a. Qed.

Lemma hasByte_true_ne c a b : hasByte c a = true → hasByte c b = false → a ≠ b.
Proof. intros Ha Hb ->. congruence. Qed.

Section listable_record.
Context (s : FileInfo) (Hs : listable s).

Lemma lineBody_LF : hasByte LF (lineBody s) = false.
Proof.
  destruct Hs as (_ & HpLF & HhLF & _). unfold lineBody.
  rewrite !hasByte_append, HpLF, HhLF, pretty_Z_LF. done.
Qed.

Lemma lineBody_short : Z.of_nat (String.length (lineBody s)) < MaxScanTokenSize.
Proof. apply Hs. Qed.

Lemma dropCR_lineBody :
  ∃ rest, dropCR (lineBody s) = Path s +:+ String TAB rest.
Proof.
  unfold lineBody. rewrite tab_append.
  rewrite dropCR_append by done.
  rewrite dropCR_cons by apply append_cons_not_nil.
  by eexists.
Qed.

Lemma firstField_lineBody : firstField (dropCR (lineBody s)) = Path s.
Proof.
  destruct dropCR_lineBody as [rest ->]. apply firstField_tab, Hs.
Qed.

Lemma lineBody_not_delimiter : dropCR (lineBody s) ≠ splitLine.
Proof.
  destruct dropCR_lineBody as [rest ->].
  apply (hasByte_true_ne TAB); [| done].
  rewrite hasByte_append. apply orb_true_iff. by right.
Qed.
End listable_record.

Lemma linesOf_cons k v visit :
  linesOf ((k, v) :: visit) = (splitLine :: (lineBody <$> v)) ++ linesOf visit.
Proof. reflexivity. Qed.

Lemma elem_of_linesOf visit line :
  line ∈ linesOf visit →
  line = splitLine ∨ ∃ s, s ∈ concat visit.*2 ∧ line = lineBody s.
Proof.
  induction visit as [| [k v] visit IH]; [by intros ?%not_elem_of_nil |].
  rewrite linesOf_cons, fmap_cons. cbn [concat snd].
  rewrite elem_of_app, elem_of_cons, list_elem_of_fmap.
  intros [[-> | (s & -> & Hs)] | Hin].
  - by left.
  - right. exists s. split; [| done]. apply elem_of_app. by left.
  - destruct (IH Hin) as [-> | (s & Hs & ->)]; [by left |].
    right. exists s. split; [| done]. apply elem_of_app. by right.
Qed.

Lemma keptPaths_bodies (v : FileInfos) :
  (∀ s, s ∈ v → listable s) →
  keptPaths (dropCR <$> (lineBody <$> v)) = Path <$> v.
Proof.
  induction v as [| s v IH]; intros Hv; [done |].
  rewrite !fmap_cons, keptPaths_cons.
  rewrite decide_True by apply lineBody_not_delimiter.
  rewrite firstField_lineBody by (apply Hv; left).
  f_equal. apply IH. intros s' Hin. apply Hv. by right.
Qed.

Lemma keptPaths_linesOf visit :
  (∀ s, s ∈ concat visit.*2 → listable s) →
  keptPaths (dropCR <$> linesOf visit) = Path <$> concat visit.*2.
Proof.
  induction visit as [| [k v] visit IH]; intros Hv; [done |].
  rewrite linesOf_cons, fmap_cons in *. cbn [concat snd] in *.
  rewrite fmap_app, keptPaths_app, (fmap_app Path), fmap_cons, keptPaths_cons.
  rewrite decide_False by (intros Hne; by apply Hne).
  rewrite keptPaths_bodies by (intros s Hin; apply Hv, elem_of_app; by left).
  f_equal. apply IH. intros s Hin. apply Hv, elem_of_app. by right.
Qed.

Lemma cutGroups_bodies (v : FileInfos) rest :
  (∀ s, s ∈ v → listable s) →
  cutGroups ((dropCR <$> (lineBody <$> v)) ++ rest)
  = ((Path <$> v) ++ (cutGroups rest).1, (cutGroups rest).2).
Proof.
  induction v as [| s v IH]; intros Hv.
  - simpl. by destruct (cutGroups rest).
  - rewrite !fmap_cons, <- app_comm_cons. cbn [cutGroups].
    rewrite IH by (intros s' Hin; apply Hv; by right).
    rewrite decide_False by apply lineBody_not_delimiter.
    rewrite firstField_lineBody by (apply Hv; left). done.
Qed.

Lemma cutGroups_linesOf visit :
  (∀ s, s ∈ concat visit.*2 → listable s) →
  cutGroups (dropCR <$> linesOf visit) = ([], (fmap (M := list) Path) <$> visit.*2).
Proof.
  induction visit as [| [k v] visit IH]; intros Hv; [done |].
  rewrite linesOf_cons, fmap_cons in *. cbn [concat snd] in *.
  rewrite fmap_app, fmap_cons. rewrite <- app_comm_cons. cbn [cutGroups].
  rewrite cutGroups_bodies by (intros s Hin; apply Hv, elem_of_app; by left).
  rewrite IH by (intros s Hin; apply Hv, elem_of_app; by right).
  rewrite decide_True by done. cbn [fst snd]. by rewrite app_nil_r.
Qed.

(** What the scanner reads from the text of a result whose records the
    format can hold: the lines that were written. *)
Lemma scannerLines_writeGroups visit :
  (∀ s, s ∈ concat visit.*2 → listable s) →
  scannerLines (writeGroups visit) = dropCR <$> linesOf visit.
Proof.
  intros Hv. unfold scannerLines. rewrite writeGroups_unlines.
  rewrite rawLines_unlines.
  - apply scanTokens_short. intros line Hin.
    destruct (elem_of_linesOf _ _ Hin) as [-> | (s & Hs & ->)]; [done |].
    by apply lineBody_short, Hv.
  - intros line Hin.
    destruct (elem_of_linesOf _ _ Hin) as [-> | (s & Hs & ->)]; [done |].
    by apply lineBody_LF, Hv.
Qed.

Lemma records_visit (l : DupList) visit :
  visit ≡ₚ map_to_list l → concat visit.*2 ≡ₚ records l.
Proof. intros Hv. unfold records. by rewrite Hv. Qed.

(** C5, as amended.  For a result whose paths hold neither a tab nor a line
    feed, whose hashes hold no line feed and whose lines fit into the buffer
    of the scanner, and for any order in which saveList visits the groups:
    when saveList succeeds, readList on the file it wrote returns the paths
    of the records in the order written, which are the paths of the result;
    and the delimiter lines give the groups back. *)
Theorem saveList_readList_roundtrip (l : DupList) visit f (d d' : Disk) text :
  visit ≡ₚ map_to_list l →
  (∀ s, s ∈ records l → listable s) →
  saveList_on visit f l d = (d', text, None) →
  readList [f] d' = (Path <$> concat visit.*2, None)
  ∧ Path <$> concat visit.*2 ≡ₚ Path <$> records l
  ∧ groupsOfLines (scannerLines text) = (fmap (M := list) Path) <$> visit.*2.
Proof.
  intros Hvisit Hl Hsave.
  assert (∀ s, s ∈ concat visit.*2 → listable s) as Hv.
  { intros s Hs. apply Hl. by rewrite <- (records_visit l visit). }
  unfold saveList_on in Hsave.
  destruct (decide (size l = 0%nat)); [done |].
  assert (d' = <[f := inr (writeGroups visit)]> d ∧ text = writeGroups visit)
    as [-> ->] by (destruct (d !! f) as [[e | c] |]; by simplify_eq).
  split_and!.
  - unfold readList. cbn [readFiles]. rewrite lookup_insert_eq.
    rewrite scanLoop_total. cbn [readFiles app].
    by rewrite scannerLines_writeGroups, keptPaths_linesOf.
  - by rewrite (records_visit l visit).
  - unfold groupsOfLines.
    by rewrite scannerLines_writeGroups, cutGroups_linesOf.
Qed.

Lemma records_plainGroups :
  records plainGroups
  = [mkFileInfo "/data/A" 10 "336311a016184326ddf9893f9df8cb6c";
     mkFileInfo "/data/B" 10 "336311a016184326ddf9893f9df8cb6c"].
Proof. vm_compute. reflexivity. Qed.

Lemma plainGroups_listable s : s ∈ records plainGroups → listable s.
Proof.
  rewrite records_plainGroups, !elem_of_cons.
  intros [-> | [-> | ?%not_elem_of_nil]]; [| | done]; by vm_compute.
Qed.

Lemma saveList_readList_roundtrip_witness :
  readList ["list.txt"]
    (saveList_on (map_to_list plainGroups) "list.txt" plainGroups ∅).1.1
  = (Path <$> concat (map_to_list plainGroups).*2, None)
  ∧ Path <$> concat (map_to_list plainGroups).*2 ≡ₚ Path <$> records plainGroups
  ∧ groupsOfLines
      (scannerLines (saveList_on (map_to_list plainGroups) "list.txt" plainGroups ∅).1.2)
    = (fmap (M := list) Path) <$> (map_to_list plainGroups).*2.
Proof.
  apply (saveList_readList_roundtrip plainGroups (map_to_list plainGroups)
           "list.txt" ∅).
  - reflexivity.
  - apply plainGroups_listable.
  - vm_compute. reflexivity.
Defined.

(** C5, as stated, fails: the result holds a path with a tab, saveList writes
    it, and readList returns the path cut at the tab. *)
Lemma roundtrip_tab_counterexample :
  let '(d', text, err) :=
    saveList_on (map_to_list tabGroups) "list.txt" tabGroups ∅ in
  err = None
  ∧ readList ["list.txt"] d' = (["/d/a"; "/d/c"], None)
  ∧ Path <$> records tabGroups = ["/d/a" +:+ tab +:+ "b"; "/d/c"]
  ∧ ¬ (["/d/a"; "/d/c"] ≡ₚ Path <$> records tabGroups).
Proof.
  vm_compute. split_and!; try reflexivity.
  intros Hp. apply Permutation_in with (x := "/d/a") in Hp; [| by left].
  destruct Hp as [Hp | [Hp | []]]; discriminate Hp.
Qed.

(** ** Walker *)

Lemma entry_ind (P : entry → Prop) :
  (∀ name err, P (Missing name err)) →
  (∀ name info err, P (Node name info (inl err))) →
  (∀ name info names, Forall P names → P (Node name info (inr names))) →
  ∀ e, P e.
Proof.
  intros HM HE HN. fix IH 1. intros [name err | name info [err | names]].
  - apply HM.
  - apply HE.
  - apply HN. induction names as [| c names IHn]; constructor; [apply IH | apply IHn].
Qed.

Section walker.
Context `{Platform}.

Lemma walkFn_error path info err files :
  walkFn path info (Some err) files = (files, Some SkipDir).
Proof. reflexivity. Qed.

(** The function literal on an entry that could be read. *)
Lemma walkFn_visit path info files :
  walkFn path (Some info) None files
  = (files ++ (if IsDir info then []
               else if IsRegular info && (0 <? fi_Size info)
                    then [mkFileInfo path (fi_Size info) ""] else []),
     if IsDir info && isRepo path then Some SkipDir else None).
Proof.
  unfold walkFn, isRepo, IsDir, IsRegular.
  destruct (Mode info); simpl;
    repeat (case_match; simpl); by rewrite ?app_nil_r.
Qed.

(** The loop inside [walk] is [walkRange]. *)
Lemma walk_dir fn path name info names files :
  IsDir info = true →
  walk fn path (Node name info (inr names)) files
  = let '(files1, err1) := fn path (Some info) None files in
    match err1 with
    | Some _ => (files1, err1)
    | None => walkRange fn path names files1
    end.
Proof.
  intros Hdir. cbn [walk]. rewrite Hdir. cbn [negb].
  destruct (fn path (Some info) None files) as [files1 [e |]]; [done |].
  revert files1. induction names as [| c names IH]; intros files1; [done |].
  cbn [walkRange]. destruct (walk fn _ c files1) as [files' [err |]].
  - destruct (tolerated c err); [apply IH | done].
  - apply IH.
Qed.

Lemma found_dir path name info names :
  IsDir info = true →
  found path (Node name info (inr names))
  = if isRepo path then [] else foundBelow path names.
Proof.
  intros Hdir. cbn [found]. rewrite Hdir. destruct (isRepo path); [done |].
  induction names as [| c names IH]; [done |]. cbn [foundBelow]. by rewrite IH.
Qed.

Lemma verdict_tolerated path e : verdict path e = Some SkipDir → tolerated e SkipDir = true.
Proof.
  destruct e as [name err | name info [err | names]]; simpl; [done | |];
    by destruct (IsDir info).
Qed.

Lemma verdict_cases path e : verdict path e = None ∨ verdict path e = Some SkipDir.
Proof.
  destruct e as [name err | name info [err | names]]; simpl; [by right | |];
    destruct (IsDir info); try destruct (isRepo path); auto.
Qed.

(** [walk] with the function literal of [walkDirs]: it appends the records
    of the contract and returns nil or [SkipDir], never another error. *)
Lemma walk_found e : ∀ path files,
  walk walkFn path e files = (files ++ found path e, verdict path e).
Proof.
  induction e as [name err | name info err | name info names IH] using entry_ind;
    intros path files.
  - simpl. by rewrite app_nil_r.
  - cbn [walk found verdict]. destruct (IsDir info) eqn:Hdir; cbn [negb].
    + rewrite walkFn_error. by rewrite app_nil_r.
    + rewrite walkFn_visit, Hdir. done.
  - destruct (IsDir info) eqn:Hdir.
    + rewrite walk_dir, found_dir by done. rewrite walkFn_visit, Hdir.
      cbn [verdict andb]. rewrite Hdir.
      destruct (isRepo path); [done |]. rewrite app_nil_r.
      clear Hdir. revert files.
      induction IH as [| c names Hc _ IHn]; intros files.
      * simpl. by rewrite app_nil_r.
      * cbn [walkRange foundBelow]. rewrite Hc.
        destruct (verdict_cases (filepath_Join path (entry_name c)) c) as [Hv | Hv].
        -- rewrite Hv, IHn. by rewrite app_assoc.
        -- rewrite Hv, (verdict_tolerated _ _ Hv), IHn. by rewrite app_assoc.
    + cbn [walk found verdict]. rewrite Hdir. cbn [negb].
      by rewrite walkFn_visit, Hdir.
Qed.

Lemma walkRange_found path names files :
  walkRange walkFn path names files = (files ++ foundBelow path names, None).
Proof.
  revert files. induction names as [| c names IH]; intros files.
  - simpl. by rewrite app_nil_r.
  - cbn [walkRange foundBelow]. rewrite walk_found.
    destruct (verdict_cases (filepath_Join path (entry_name c)) c) as [Hv | Hv].
    + rewrite Hv, IH. by rewrite app_assoc.
    + rewrite Hv, (verdict_tolerated _ _ Hv), IH. by rewrite app_assoc.
Qed.

(** [filepath.Walk] with this function literal returns no error. *)
Lemma filepath_Walk_found root files :
  filepath_Walk root walkFn files = (files ++ found root (os_Lstat root), None).
Proof.
  unfold filepath_Walk. rewrite walk_found.
  by destruct (verdict_cases root (os_Lstat root)) as [-> | ->].
Qed.

Lemma walkRoots_found dirs files :
  walkRoots filepath_Walk dirs files = (files ++ foundRoots dirs, None).
Proof.
  revert files. induction dirs as [| dir dirs IH]; intros files.
  - simpl. by rewrite app_nil_r.
  - cbn [walkRoots foundRoots]. destruct (filepath_Abs dir) as [absDir | e].
    + rewrite filepath_Walk_found, IH. by rewrite app_assoc.
    + apply IH.
Qed.

(** [walkDirs] on a list of roots that is not empty: the records of the
    contract and no error. *)
Lemma walkDirs_found dirs : dirs ≠ [] → walkDirs dirs = (foundRoots dirs, None).
Proof.
  intros Hne. unfold walkDirs, walkDirsWith.
  destruct dirs as [| dir dirs]; [done |]. by rewrite walkRoots_found.
Qed.

Lemma found_unreadable path e : unreadable e → found path e = [].
Proof.
  destruct e as [name err | name info [err | names]]; simpl; [done | | done].
  by intros ->.
Qed.

Lemma found_fresh e : ∀ path f, f ∈ found path e → fresh f.
Proof.
  induction e as [name err | name info err | name info names IH] using entry_ind;
    intros path f.
  - by intros ?%not_elem_of_nil.
  - cbn [found]. destruct (IsDir info); [by intros ?%not_elem_of_nil |].
    destruct (IsRegular info && (0 <? fi_Size info)) eqn:Hreg;
      [| by intros ?%not_elem_of_nil].
    intros ->%list_elem_of_singleton. apply andb_true_iff in Hreg as [_ Hsz].
    split; [simpl; lia | done].
  - destruct (IsDir info) eqn:Hdir.
    + rewrite found_dir by done.
      destruct (isRepo path); [by intros ?%not_elem_of_nil |].
      induction IH as [| c names Hc _ IHn]; [by intros ?%not_elem_of_nil |].
      cbn [foundBelow]. rewrite elem_of_app. intros [Hf | Hf]; [| by apply IHn].
      by apply (Hc _ _ Hf).
    + cbn [found]. rewrite Hdir.
      destruct (IsRegular info && (0 <? fi_Size info)) eqn:Hreg;
        [| by intros ?%not_elem_of_nil].
      intros ->%list_elem_of_singleton. apply andb_true_iff in Hreg as [_ Hsz].
      split; [simpl; lia | done].
Qed.

Lemma foundRoots_fresh dirs f : f ∈ foundRoots dirs → fresh f.
Proof.
  induction dirs as [| dir dirs IH]; [by intros ?%not_elem_of_nil |].
  cbn [foundRoots]. destruct (filepath_Abs dir) as [absDir | e]; [| done].
  rewrite elem_of_app. intros [Hf | Hf]; [by apply (found_fresh _ _ _ Hf) | by apply IH].
Qed.

(** Every record [walkDirs] returns has a size above zero and no hash. *)
Lemma walkDirs_fresh dirs f : f ∈ (walkDirs dirs).1 → fresh f.
Proof.
  destruct dirs as [| dir dirs]; [by intros ?%not_elem_of_nil |].
  rewrite walkDirs_found by done. apply foundRoots_fresh.
Qed.

Lemma walkRoots_app Walk pre rest files :
  walkRoots Walk (pre ++ rest) files
  = match walkRoots Walk pre files with
    | (files1, None) => walkRoots Walk rest files1
    | (files1, Some e) => (files1, Some e)
    end.
Proof.
  revert files. induction pre as [| dir pre IH]; intros files; [done |].
  rewrite <- app_comm_cons. cbn [walkRoots].
  destruct (filepath_Abs dir) as [absDir | e]; [| apply IH].
  destruct (Walk absDir walkFn files) as [files' [e |]]; [done | apply IH].
Qed.

(** C8.  The Walker fails in two ways only.  Without roots it returns the
    error that no directory was given, and that error is all the detection
    pass returns.  An entry that cannot be read (its lstat fails, or it is a
    directory whose names cannot be read) makes the function literal return
    SkipDir and record nothing; in the loop over a directory the walk goes
    on with the next name, at a root filepath.Walk returns no error, and so
    walkDirs on roots returns no error.  An error that the walk primitive
    itself returns for a root, after the roots before it went through, is
    returned by walkDirs with no records; and an error of walkDirs ends the
    detection pass with that error and no groups. *)
Theorem walkDirs_errors :
  (∀ Walk, walkDirsWith Walk [] = ([], Some "目录未指定"))
  ∧ (∀ hashName n res,
       List_run [] hashName n res ↔ res = (∅, Some "目录未指定"))
  ∧ (∀ path e files,
       unreadable e → walk walkFn path e files = (files, Some SkipDir))
  ∧ (∀ path c names files,
       unreadable c →
       walkRange walkFn path (c :: names) files = walkRange walkFn path names files)
  ∧ (∀ root files,
       unreadable (os_Lstat root) → filepath_Walk root walkFn files = (files, None))
  ∧ (∀ dirs, dirs ≠ [] → (walkDirs dirs).2 = None)
  ∧ (∀ Walk pre dir post absDir files files' e,
       walkRoots Walk pre [] = (files, None) →
       filepath_Abs dir = inl absDir →
       Walk absDir walkFn files = (files', Some e) →
       walkDirsWith Walk (pre ++ dir :: post) = ([], Some e))
  ∧ (∀ dirs hashName n res e,
       (walkDirs dirs).2 = Some e →
       List_run dirs hashName n res → res = (∅, Some e)).
Proof.
  assert (∀ path e files,
            unreadable e → walk walkFn path e files = (files, Some SkipDir)) as Hskip.
  { intros path e files He. rewrite walk_found, found_unreadable, app_nil_r by done.
    f_equal. destruct e as [name err | name info [err | names]]; simpl in *;
      [done | by rewrite He | done]. }
  split_and!.
  - done.
  - done.
  - exact Hskip.
  - intros path c names files Hc. cbn [walkRange]. rewrite Hskip by done.
    assert (tolerated c SkipDir = true) as ->; [| done].
    destruct c as [name err | name info [err | names']]; simpl in *; done.
  - intros root files Hroot. rewrite filepath_Walk_found.
    by rewrite found_unreadable, app_nil_r.
  - intros dirs Hne. by rewrite walkDirs_found.
  - intros Walk pre dir post absDir files files' e Hpre Habs HWalk.
    unfold walkDirsWith.
    assert (walkRoots Walk (pre ++ dir :: post) [] = ([], Some e)) as Hall.
    { rewrite walkRoots_app, Hpre. cbn [walkRoots]. by rewrite Habs, HWalk. }
    by destruct pre.
  - intros dirs hashName n res e. unfold List_run.
    destruct (walkDirs dirs) as [fs [e' |]]; [| done]. by intros [= ->].
Qed.
End walker.

Example walkDirs_example :
  walkDirs ["/data"]
  = ([mkFileInfo "/data/A" 10 ""; mkFileInfo "/data/B" 10 "";
      mkFileInfo "/data/C" 10 ""; mkFileInfo "/data/D" 20 "";
      mkFileInfo "/data/E" 10 ""], None).
Proof. vm_compute. reflexivity. Qed.

Example walkDirs_missing_root :
  walkDirs ["/nowhere"; ""; "/data"] = walkDirs ["/data"].
Proof. vm_compute. reflexivity. Qed.

(** The last part of the theorem at a primitive that fails on the second
    root. *)
Lemma walkDirs_errors_witness :
  walkDirsWith brokenWalk ["" ; "/data"; "/other"]
  = ([], Some "lstat /data: input/output error").
Proof.
  destruct (walkDirs_errors (H := examplePlatform))
    as (_ & _ & _ & _ & _ & _ & Hprim & _).
  apply (Hprim brokenWalk [""] "/data" ["/other"] "/data" [] []).
  - vm_compute. reflexivity.
  - vm_compute. reflexivity.
  - vm_compute. reflexivity.
Defined.

(** ** Hasher *)

Lemma omap_lookup_seq {A B : Type} (g : A → option B) (pre l : list A) :
  omap (λ i, (pre ++ l) !! i ≫= g) (seq (length pre) (length l)) = omap g l.
Proof.
  revert pre. induction l as [| a l IH]; intros pre; [done |].
  cbn [length seq omap list_omap].
  rewrite list_lookup_middle by done. cbn [mbind option_bind].
  specialize (IH (pre ++ [a])). rewrite length_app, <- app_assoc in IH.
  cbn [length app] in IH. rewrite Nat.add_1_r in IH.
  destruct (g a); [f_equal |]; exact IH.
Qed.

Lemma errors_Join_Some errs : errs ≠ [] → is_Some (errors_Join errs).
Proof. destruct errs; [done | by eexists]. Qed.

Section hasher.
Context `{Platform}.

Lemma hashedBy_Size hashName f : Size (hashedBy hashName f) = Size f.
Proof.
  unfold hashedBy. by destruct (calcHash _ _) as [hv [e |]].
Qed.


(** One task, in terms of what the Hasher does to a record. *)
Lemma hashTask_step hashName (files : FileInfos) errs i f :
  files !! i = Some f →
  hashTask hashName (files, errs) i
  = (<[i := hashedBy hashName f]> files,
     errs ++ option_list (hashFailure hashName f)).
Proof.
  intros Hi. unfold hashTask, hashedBy, hashFailure. rewrite Hi.
  destruct (calcHash _ _) as [hv [e |]]; simpl.
  - by rewrite list_insert_id.
  - by rewrite app_nil_r.
Qed.

(** The tasks that have finished, in any order without repetition: their
    records carry the outcome, the other records are as they were, and the
    error list holds the failures in the order of finishing. *)
Lemma hashTasks_invariant hashName (files : FileInfos) (finished : list nat) :
  NoDup finished →
  length (foldl (hashTask hashName) (files, []) finished).1 = length files
  ∧ (∀ i, (foldl (hashTask hashName) (files, []) finished).1 !! i
          = if decide (i ∈ finished) then hashedBy hashName <$> files !! i
            else files !! i)
  ∧ (foldl (hashTask hashName) (files, []) finished).2
    = omap (λ i, files !! i ≫= hashFailure hashName) finished.
Proof.
  induction finished as [| i finished IH] using rev_ind; intros Hnd.
  { split_and!; [done | | done]. intros i. by rewrite decide_False by apply not_elem_of_nil. }
  apply NoDup_app in Hnd as (Hnd & Hi & _).
  assert (i ∉ finished) as Hfresh by (intros Hin; apply (Hi i Hin); left).
  destruct (IH Hnd) as (Hlen & Hlook & Herrs). clear IH Hi.
  rewrite foldl_app. cbn [foldl].
  destruct (foldl (hashTask hashName) (files, []) finished) as [cur errs].
  cbn [fst snd] in *. rewrite omap_app. cbn [omap list_omap].
  pose proof (Hlook i) as Hcur. rewrite decide_False in Hcur by done.
  destruct (files !! i) as [f |] eqn:Hf.
  - rewrite (hashTask_step _ _ _ _ f) by done. cbn [fst snd mbind option_bind].
    split_and!.
    + by rewrite length_insert.
    + intros j. destruct (decide (j = i)) as [-> | Hne].
      * rewrite list_lookup_insert_eq by (rewrite Hlen; by eapply lookup_lt_Some).
        rewrite decide_True by (apply elem_of_app; right; left). by rewrite Hf.
      * rewrite list_lookup_insert_ne by done. rewrite Hlook.
        destruct (decide (j ∈ finished)) as [Hj | Hj].
        -- rewrite decide_True; [done | apply elem_of_app; by left].
        -- rewrite decide_False; [done |]. rewrite elem_of_app, list_elem_of_singleton. tauto.
    + rewrite Herrs. by destruct (hashFailure hashName f).
  - unfold hashTask. rewrite Hcur. cbn [fst snd mbind option_bind].
    split_and!; [done | | by rewrite Herrs, app_nil_r].
    intros j. rewrite Hlook. destruct (decide (j = i)) as [-> | Hne].
    + rewrite Hf. by repeat case_decide.
    + destruct (decide (j ∈ finished)) as [Hj | Hj].
      * rewrite decide_True; [done | apply elem_of_app; by left].
      * rewrite decide_False; [done |]. rewrite elem_of_app, list_elem_of_singleton. tauto.
Qed.

(** Every run of [calcHashs] that returns: each record carries the outcome
    of its own task, and the error joins the failures. *)
Lemma calcHashs_on_spec order (files : FileInfos) hashName n files' err :
  order ≡ₚ seq 0 (length files) →
  calcHashs_on order files hashName n = Some (files', err) →
  files' = hashedBy hashName <$> files
  ∧ ∃ errs, errs ≡ₚ omap (hashFailure hashName) files ∧ err = errors_Join errs.
Proof.
  intros Horder. unfold calcHashs_on.
  destruct files as [| f0 files0] eqn:Hfiles.
  { intros [= <- <-]. split; [done |]. by exists []. }
  rewrite <- Hfiles in *. clear Hfiles f0 files0.
  destruct (n <? 1); [done |].
  assert (NoDup order) as Hnd by (rewrite Horder; apply NoDup_seq).
  destruct (hashTasks_invariant hashName files order Hnd) as (Hlen & Hlook & Herrs).
  destruct (foldl (hashTask hashName) (files, []) order) as [cur errs].
  cbn [fst snd] in *. intros [= <- <-]. split.
  - apply list_eq. intros i. rewrite Hlook, list_lookup_fmap.
    case_decide as Hi; [done |].
    rewrite Horder, elem_of_seq in Hi.
    rewrite (lookup_ge_None_2 files i) by lia. done.
  - exists errs. split; [| done]. rewrite Herrs, Horder.
    by rewrite (omap_lookup_seq (hashFailure hashName) [] files).
Qed.

Lemma calcHashs_run_exists (files : FileInfos) hashName n :
  1 ≤ n → ∃ res, calcHashs_run files hashName n res ∧ calcHashs files hashName n = Some res.
Proof.
  intros Hn. unfold calcHashs_run, calcHashs, calcHashs_on.
  destruct files as [| f0 files0] eqn:Hfiles.
  { eexists. split; [by exists [] | done]. }
  rewrite <- Hfiles. destruct (Z.ltb_spec n 1); [lia |].
  destruct (foldl _ _ (seq 0 (length files))) as [cur errs] eqn:Hfold.
  eexists. split; [| done]. exists (seq 0 (length files)). by rewrite Hfold.
Qed.

(** ** The detection pass *)

Lemma List_run_List dirs hashName n res :
  List dirs hashName n = Some res → List_run dirs hashName n res.
Proof.
  unfold List, List_run. destruct (walkDirs dirs) as [fs [e |]].
  - by intros [= <-].
  - destruct (calcHashs (groupBySize fs) hashName n) as [[fs2 err] |] eqn:Hc; [| done].
    intros [= <-]. exists (groupBySize fs), fs2, err, (groupByHash fs2).
    split_and!; [apply groupBySize_run_default | | by apply groupByHash_run_unique | done].
    exists (seq 0 (length (groupBySize fs))). by split.
Qed.

Lemma List_run_exists dirs hashName n : 1 ≤ n → ∃ res, List_run dirs hashName n res.
Proof.
  intros Hn. unfold List_run. destruct (walkDirs dirs) as [fs [e |]]; [by eexists |].
  destruct (calcHashs_run_exists (groupBySize fs) hashName n Hn) as ([fs2 err] & Hrun & _).
  exists (groupByHash fs2, err), (groupBySize fs), fs2, err, (groupByHash fs2).
  split_and!; [apply groupBySize_run_default | done | by apply groupByHash_run_unique | done].
Qed.

(** The stages of a pass that got past the Walker. *)
Lemma List_run_stages dirs hashName n lst err :
  List_run dirs hashName n (lst, err) → (walkDirs dirs).2 = None →
  ∃ fs1, groupBySize_run (walkDirs dirs).1 fs1
         ∧ lst = groupByHash (hashedBy hashName <$> fs1)
         ∧ ∃ errs, errs ≡ₚ omap (hashFailure hashName) fs1 ∧ err = errors_Join errs.
Proof.
  unfold List_run. destruct (walkDirs dirs) as [fs [e |]]; [done |].
  intros (fs1 & fs2 & err' & lst' & Hsize & (order & Horder & Hcalc) & Hhash & [= -> ->]) _.
  destruct (calcHashs_on_spec _ _ _ _ _ _ Horder Hcalc) as (-> & Herrs).
  exists fs1. split_and!; [done | by apply groupByHash_run_unique | done].
Qed.

(** C4.  In every result of the detection pass every record has a hash that
    is not empty and a size above zero, no record is in two different
    groups, and every group has at least two records. *)
Theorem List_invariants dirs hashName n (lst : DupList) err :
  List_run dirs hashName n (lst, err) →
  (∀ h g f, lst !! h = Some g → f ∈ g → Hash f ≠ "" ∧ 0 < Size f)
  ∧ (∀ h1 h2 g1 g2 f,
       lst !! h1 = Some g1 → lst !! h2 = Some g2 → f ∈ g1 → f ∈ g2 → h1 = h2)
  ∧ (∀ h g, lst !! h = Some g → (2 ≤ length g)%nat).
Proof.
  intros Hrun. destruct ((walkDirs dirs).2) as [e |] eqn:Hwalk.
  { unfold List_run in Hrun. destruct (walkDirs dirs) as [fs [e' |]]; [| done].
    injection Hrun as -> _. split_and!; intros *; by rewrite lookup_empty. }
  destruct (List_run_stages _ _ _ _ _ Hrun Hwalk) as (fs1 & Hsize & -> & _).
  assert (∀ h g f, groupByHash (hashedBy hashName <$> fs1) !! h = Some g → f ∈ g
            → h ≠ "" ∧ (2 ≤ length g)%nat ∧ Hash f = h
              ∧ f ∈ hashedBy hashName <$> fs1) as Hgroup.
  { intros h g f Hg Hf. unfold groupByHash in Hg.
    rewrite groupByHash_on_lookup in Hg by done.
    case_decide as Hh; [| done]. injection Hg as <-. destruct Hh as [Hh Hlen].
    split_and!; [done | done | by eapply bucket_key | by eapply bucket_elem]. }
  split_and!.
  - intros h g f Hg Hf. destruct (Hgroup _ _ _ Hg Hf) as (Hh & _ & <- & Hin).
    split; [done |]. apply list_elem_of_fmap in Hin as (f1 & -> & Hf1).
    rewrite hashedBy_Size.
    rewrite (groupBySize_run_multiset _ _ Hsize) in Hf1.
    apply elem_of_repeated in Hf1 as [_ Hf1].
    by apply walkDirs_fresh in Hf1 as [? _].
  - intros h1 h2 g1 g2 f Hg1 Hg2 Hf1 Hf2.
    destruct (Hgroup _ _ _ Hg1 Hf1) as (_ & _ & <- & _).
    by destruct (Hgroup _ _ _ Hg2 Hf2) as (_ & _ & <- & _).
  - intros h g Hg. unfold groupByHash in Hg.
    rewrite groupByHash_on_lookup in Hg by done.
    case_decide as Hh; [| done]. injection Hg as <-. apply Hh.
Qed.

(** Records without a hash that fail to be hashed drop out at the grouping;
    what is grouped are the records that were hashed. *)
Lemma hashed_outcomes hashName (fs : FileInfos) :
  (∀ f, f ∈ fs → Hash f = "") →
  hashed (hashedBy hashName <$> fs) = hashed (omap (hashSuccess hashName) fs).
Proof.
  induction fs as [| f fs IH]; intros Hfs; [done |].
  rewrite fmap_cons. cbn [omap list_omap]. unfold hashed in *.
  rewrite filter_cons, IH by (intros f' Hin; apply Hfs; by right).
  unfold hashedBy, hashSuccess.
  destruct (calcHash _ _) as [hv [e |]].
  - rewrite decide_False; [done |]. rewrite (Hfs f) by left. by intros ?.
  - by rewrite filter_cons.
Qed.

End hasher.

Example List_example :
  List ["/data"] "MD5" 4
  = Some ({[ "xxxxxxxxxx" := [mkFileInfo "/data/A" 10 "xxxxxxxxxx";
                              mkFileInfo "/data/B" 10 "xxxxxxxxxx"] ]},
          Some "计算文件 /data/E 的Hash值失败: open /data/E: permission denied").
Proof. vm_compute. reflexivity. Qed.

(** Without an admitted task the pass does not return. *)
Example List_no_slot : List ["/data"] "md5" 0 = None.
Proof. vm_compute. reflexivity. Qed.

Lemma List_invariants_witness :
  let lst : DupList :=
    {[ "xxxxxxxxxx" := [mkFileInfo "/data/A" 10 "xxxxxxxxxx";
                        mkFileInfo "/data/B" 10 "xxxxxxxxxx"] ]} in
  (∀ h g f, lst !! h = Some g → f ∈ g → Hash f ≠ "" ∧ 0 < Size f)
  ∧ (∀ h1 h2 g1 g2 f,
       lst !! h1 = Some g1 → lst !! h2 = Some g2 → f ∈ g1 → f ∈ g2 → h1 = h2)
  ∧ (∀ h g, lst !! h = Some g → (2 ≤ length g)%nat).
Proof.
  apply (List_invariants (H := examplePlatform) ["/data"] "MD5" 4 _
           (Some "计算文件 /data/E 的Hash值失败: open /data/E: permission denied")).
  apply List_run_List. vm_compute. reflexivity.
Defined.


(** * Part III: further properties of the code *)

(** ** The grouping stages *)

(** X1.  The map groupByHash returns does not depend on the order in which
    its second loop visits the counts: a hash is bound exactly when it is
    not empty and at least two input records carry it, and then to these
    records in the order of the input. *)
Theorem groupByHash_groups (files : FileInfos) (out : DupList) :
  groupByHash_run files out →
  out = groupByHash files
  ∧ ∀ h g, out !! h = Some g
           ↔ h ≠ "" ∧ (2 ≤ occurrences Hash h files)%nat
             ∧ g = bucket Hash h files.
Proof.
  intros Hrun. split; [by apply groupByHash_run_unique |].
  intros h g. rewrite (groupByHash_run_lookup _ _ _ Hrun).
  case_decide as Hh; split.
  - intros [= <-]. by destruct Hh.
  - by intros (_ & _ & ->).
  - done.
  - intros (? & ? & _). tauto.
Qed.

Lemma groupByHash_groups_witness :
  groupByHash scenarioHashed = groupByHash scenarioHashed
  ∧ ∀ h g, groupByHash scenarioHashed !! h = Some g
           ↔ h ≠ "" ∧ (2 ≤ occurrences Hash h scenarioHashed)%nat
             ∧ g = bucket Hash h scenarioHashed.
Proof.
  apply (groupByHash_groups scenarioHashed).
  exists (map_to_list (hashGroups scenarioHashed).2). split; reflexivity.
Defined.

(** X2.  In the output of groupBySize the records of one size stay
    together and keep the order of the input: the output is the
    concatenation of whole size classes of the input, each class once. *)
Theorem groupBySize_classes (files out : FileInfos) :
  groupBySize_run files out →
  ∃ sizes : list Z,
    NoDup sizes ∧ out = concat ((λ k, bucket Size k files) <$> sizes).
Proof.
  intros (visit & Hvisit & ->). destruct files as [| f0 files'].
  { exists []. split; [constructor | done]. }
  set (files := f0 :: files') in *.
  change (groupBySize_on visit files) with (sizeSweep visit (sizeGroups files)).2.
  unfold sizeSweep. rewrite sizeSweep_acc. cbn [app].
  exists ((filter (λ kv : Z * FileInfos, length kv.2 ≠ 1%nat) visit).*1). split.
  - eapply sublist_NoDup; [| apply fmap_sublist, sublist_filter].
    rewrite Hvisit. apply NoDup_fst_map_to_list.
  - f_equal. rewrite <- list_fmap_compose.
    apply Forall_fmap_ext, Forall_forall.
    intros [k v] Hkv. apply list_elem_of_filter in Hkv as [_ Hkv].
    rewrite Hvisit in Hkv. apply elem_of_map_to_list in Hkv.
    by destruct (is_index_lookup Size _ _ _ _ (sizeGroups_index files) Hkv) as [-> _].
Qed.

Lemma groupBySize_classes_witness :
  ∃ sizes : list Z,
    NoDup sizes
    ∧ groupBySize scenario = concat ((λ k, bucket Size k scenario) <$> sizes).
Proof.
  apply (groupBySize_classes scenario).
  exists (map_to_list (sizeGroups scenario)). split; reflexivity.
Defined.

(** ** Hasher *)

Section hasher_more.
Context `{Platform}.

Lemma hashedBy_Path hashName f : Path (hashedBy hashName f) = Path f.
Proof. unfold hashedBy. by destruct (calcHash _ _) as [hv [e |]]. Qed.

(** X3.  What calcHashs leaves in the records does not depend on the
    concurrency bound (as long as it is at least 1, so that the call
    returns) nor on the order in which the tasks finish: two runs on the same
    records leave the same records, of the same number, paths and sizes as
    before, and return an error in the same cases. *)
Theorem calcHashs_schedule_independent (files fs1 fs2 : FileInfos)
  hashName n1 n2 err1 err2 :
  calcHashs_run files hashName n1 (fs1, err1) →
  calcHashs_run files hashName n2 (fs2, err2) →
  fs1 = fs2
  ∧ length fs1 = length files
  ∧ (∀ i f f', files !! i = Some f → fs1 !! i = Some f'
               → Path f' = Path f ∧ Size f' = Size f)
  ∧ (err1 = None ↔ err2 = None).
Proof.
  intros (o1 & Ho1 & Hc1) (o2 & Ho2 & Hc2).
  destruct (calcHashs_on_spec _ _ _ _ _ _ Ho1 Hc1) as (-> & errs1 & He1 & ->).
  destruct (calcHashs_on_spec _ _ _ _ _ _ Ho2 Hc2) as (-> & errs2 & He2 & ->).
  split_and!.
  - done.
  - by rewrite length_fmap.
  - intros i f f' Hf. rewrite list_lookup_fmap, Hf. intros [= <-].
    by rewrite hashedBy_Path, hashedBy_Size.
  - rewrite !errors_Join_None. rewrite <- He2 in He1.
    split; intros ->.
    + by apply Permutation_nil_l in He1.
    + by apply Permutation_nil_r in He1.
Qed.
End hasher_more.

Lemma calcHashs_schedule_independent_witness :
  let fs := [mkFileInfo "/data/A" 10 "xxxxxxxxxx"; mkFileInfo "/data/E" 10 ""] in
  let err := Some "计算文件 /data/E 的Hash值失败: open /data/E: permission denied" in
  fs = fs
  ∧ length fs = length candidates
  ∧ (∀ i f f', candidates !! i = Some f → fs !! i = Some f'
               → Path f' = Path f ∧ Size f' = Size f)
  ∧ (err = None ↔ err = None).
Proof.
  apply (calcHashs_schedule_independent (H := examplePlatform)
           candidates _ _ "md5" 1 8).
  - exists [0; 1]%nat. split; [reflexivity | vm_compute; reflexivity].
  - exists [1; 0]%nat. split; [apply perm_swap | vm_compute; reflexivity].
Defined.

(** ** Cleaner *)

Lemma String_concat_app sep (l1 l2 : list string) :
  l1 ≠ [] → l2 ≠ [] →
  String.concat sep (l1 ++ l2)
  = String.concat sep l1 +:+ sep +:+ String.concat sep l2.
Proof.
  intros Hl1 Hl2. induction l1 as [| a l1 IH]; [done |].
  destruct l1 as [| b l1].
  - destruct l2 as [| c l2]; [done |]. reflexivity.
  - change (String.concat sep ((a :: b :: l1) ++ l2))
      with (a +:+ sep +:+ String.concat sep ((b :: l1) ++ l2)).
    rewrite IH by done.
    change (String.concat sep (a :: b :: l1))
      with (a +:+ sep +:+ String.concat sep (b :: l1)).
    by rewrite !append_assoc.
Qed.

Lemma errors_Join_app errs1 errs2 :
  errors_Join (errs1 ++ errs2) = joinTwo (errors_Join errs1) (errors_Join errs2).
Proof.
  destruct errs1 as [| a errs1]; [by destruct errs2 |].
  destruct errs2 as [| b errs2]; [by rewrite app_nil_r |].
  unfold errors_Join, joinTwo. rewrite <- app_comm_cons.
  f_equal. by rewrite app_comm_cons, String_concat_app.
Qed.

Lemma filter_length_all {A : Type} (P : A → Prop) `{∀ x, Decision (P x)}
  (l : list A) :
  length (filter P l) = length l ↔ ∀ x, x ∈ l → P x.
Proof.
  induction l as [| a l IH].
  - split; [intros _ x Hx; by apply not_elem_of_nil in Hx | done].
  - rewrite filter_cons. pose proof (length_filter P l) as Hle.
    destruct (decide (P a)) as [Ha | Ha]; simpl.
    + split.
      * intros Hlen x Hx. apply elem_of_cons in Hx as [-> | Hx]; [done |].
        apply IH; [lia | done].
      * intros Hall. f_equal. apply IH. intros x Hx. apply Hall. by right.
    + split; [lia |]. intros Hall. destruct Ha. apply Hall. left.
Qed.

Section cleaner_more.
Context {World : Type} `{Remover World}.

Lemma Clean_attempts (files : list string) (w : World) :
  Clean files w
  = ((attempts files w).2,
     (Z.of_nat (length (filter succeeded (attempts files w).1)),
      errors_Join (omap failure (attempts files w).1))).
Proof.
  destruct files as [| file files']; [done |].
  unfold Clean, cleanLoop. by rewrite cleanLoop_attempts.
Qed.

Lemma Clean_full_count (files : list string) (w : World) :
  (Clean files w).2.2 = None → (Clean files w).2.1 = Z.of_nat (length files).
Proof.
  rewrite Clean_attempts. cbn [fst snd].
  rewrite errors_Join_None, omap_failure_nil. intros Hall. f_equal.
  rewrite <- (attempts_paths files w) at 2. rewrite length_fmap.
  by apply filter_length_all.
Qed.

(** X4.  The number Clean returns lies between 0 and the number of paths,
    and it is the number of paths exactly when the error is nil. *)
Theorem Clean_count (files : list string) (w : World) :
  0 ≤ (Clean files w).2.1 ≤ Z.of_nat (length files)
  ∧ ((Clean files w).2.1 = Z.of_nat (length files) ↔ (Clean files w).2.2 = None).
Proof.
  rewrite Clean_attempts. cbn [fst snd].
  pose proof (length_filter succeeded (attempts files w).1) as Hle.
  assert (length (attempts files w).1 = length files) as Hlen
    by (rewrite <- (attempts_paths files w) at 2; by rewrite length_fmap).
  split; [lia |].
  rewrite errors_Join_None, omap_failure_nil, <- Hlen, Nat2Z.inj_iff.
  apply filter_length_all.
Qed.

(** X5.  Cleaning a list made of two parts is cleaning the first part and
    then, in the world this leaves, the second: the counts add up and the
    errors are joined. *)
Theorem Clean_app (files1 files2 : list string) (w : World) :
  Clean (files1 ++ files2) w
  = let '(w1, (n1, err1)) := Clean files1 w in
    let '(w2, (n2, err2)) := Clean files2 w1 in
    (w2, (n1 + n2, joinTwo err1 err2)).
Proof.
  assert (∀ fs1 fs2 (w0 : World),
            attempts (fs1 ++ fs2) w0
            = ((attempts fs1 w0).1 ++ (attempts fs2 (attempts fs1 w0).2).1,
               (attempts fs2 (attempts fs1 w0).2).2)) as Happ.
  { induction fs1 as [| f fs1 IH]; intros fs2 w0.
    - simpl. by destruct (attempts fs2 w0).
    - rewrite <- app_comm_cons. cbn [attempts].
      destruct (os_Remove f w0) as [w1 e]. rewrite IH.
      by destruct (attempts fs1 w1), (attempts fs2 _). }
  rewrite !Clean_attempts, Happ. cbn [fst snd].
  rewrite filter_app, length_app, omap_app, errors_Join_app.
  do 2 f_equal. lia.
Qed.
End cleaner_more.

(** ** Walker *)

Section walker_more.
Context `{Platform}.

Lemma foundRoots_app dirs1 dirs2 :
  foundRoots (dirs1 ++ dirs2) = foundRoots dirs1 ++ foundRoots dirs2.
Proof.
  induction dirs1 as [| dir dirs1 IH]; [done |].
  rewrite <- app_comm_cons. cbn [foundRoots].
  destruct (filepath_Abs dir) as [absDir | e]; [| done].
  by rewrite IH, app_assoc.
Qed.

Lemma walkDirs_records dirs : (walkDirs dirs).1 = foundRoots dirs.
Proof. destruct dirs as [| dir dirs]; [done |]. by rewrite walkDirs_found. Qed.

(** X6.  walkDirs against the contract of the Walker: without roots it
    returns the error that no directory was given; otherwise it never
    fails, and it returns, root after root and in the order of the walk, one
    record (path, size, no hash) for every regular file of size above zero
    that is not below a repository directory, below a directory that cannot
    be listed, or behind an entry that cannot be stat'ed. *)
Theorem walkDirs_contract (dirs : list string) :
  walkDirs dirs
  = if decide (dirs = []) then ([], Some "目录未指定")
    else (foundRoots dirs, None).
Proof.
  case_decide as Hdirs; [by subst |]. by apply walkDirs_found.
Qed.

(** X7.  A directory whose base name is .git or .svn, in any case of the
    letters, is pruned: whatever it holds, the walk records nothing for it
    and goes on with the next name of the directory above. *)
Theorem walk_prunes_repositories path name info listing names files :
  IsDir info = true →
  isRepo (filepath_Join path name) = true →
  walkRange walkFn path (Node name info listing :: names) files
  = walkRange walkFn path names files.
Proof.
  intros Hdir Hrepo. cbn [walkRange entry_name]. rewrite walk_found.
  cbn [found verdict tolerated]. rewrite Hdir, Hrepo.
  destruct listing as [err | below]; cbn [tolerated]; by rewrite Hdir, app_nil_r.
Qed.

(** X8.  The records of a list of roots are the records of its parts, one
    after the other; so a root that is given twice has each of its files
    recorded twice. *)
Theorem walkDirs_app (dirs1 dirs2 : list string) :
  (walkDirs (dirs1 ++ dirs2)).1 = (walkDirs dirs1).1 ++ (walkDirs dirs2).1.
Proof. rewrite !walkDirs_records. apply foundRoots_app. Qed.

(** X9.  Roots that do not resolve, do not exist or cannot be listed are
    passed over in silence: when every root is of this kind, walkDirs
    returns no record and no error. *)
Theorem walkDirs_silent_roots (dirs : list string) :
  dirs ≠ [] → (∀ dir, dir ∈ dirs → silentRoot dir) → walkDirs dirs = ([], None).
Proof.
  intros Hne Hsilent. rewrite walkDirs_found by done. f_equal.
  clear Hne. induction dirs as [| dir dirs IH]; [done |].
  cbn [foundRoots]. pose proof (Hsilent dir (list_elem_of_here _ _)) as Hdir.
  unfold silentRoot in Hdir.
  rewrite IH by (intros d Hd; apply Hsilent; by right).
  destruct (filepath_Abs dir) as [absDir | e]; [| done].
  by rewrite found_unreadable.
Qed.
End walker_more.

Lemma walk_prunes_repositories_witness :
  walkRange walkFn "/data"
    [Node ".GIT" (mkInfo ModeDir 4096)
       (inr [Node "HEAD" (mkInfo ModeRegular 23) (inr [])]);
     Node "A" (mkInfo ModeRegular 10) (inr [])] []
  = walkRange walkFn "/data" [Node "A" (mkInfo ModeRegular 10) (inr [])] [].
Proof.
  apply (walk_prunes_repositories (H := examplePlatform)); reflexivity.
Defined.

Lemma walkDirs_silent_roots_witness : walkDirs ["/nowhere"; ""] = ([], None).
Proof.
  apply (walkDirs_silent_roots (H := examplePlatform)); [done |].
  intros dir Hdir. rewrite !elem_of_cons in Hdir.
  destruct Hdir as [-> | [-> | ?%not_elem_of_nil]]; [| | done]; exact I.
Defined.

(** ** The detection pass *)

Lemma groupByHash_Permutation (l1 l2 : FileInfos) :
  l1 ≡ₚ l2 → sameGroups (groupByHash l1) (groupByHash l2).
Proof.
  intros Hp h. unfold groupByHash. rewrite !groupByHash_on_lookup by done.
  rewrite (occurrences_Permutation Hash h l1 l2 Hp).
  case_decide; constructor. unfold bucket. by rewrite Hp.
Qed.

Lemma sameGroups_refl l : sameGroups l l.
Proof. intros h. by destruct (l !! h); constructor. Qed.

Section pass.
Context `{Platform}.

(** X10.  The result of the detection pass does not depend on the
    concurrency bound nor on any of the orders the run leaves open (the
    iteration over the maps, the finishing of the hashing tasks): two runs
    on the same roots return the same hashes, under each hash the same
    records up to their order, and an error in the same cases. *)
Theorem List_schedule_independent dirs hashName n1 n2
  (l1 l2 : DupList) err1 err2 :
  List_run dirs hashName n1 (l1, err1) →
  List_run dirs hashName n2 (l2, err2) →
  sameGroups l1 l2 ∧ (err1 = None ↔ err2 = None).
Proof.
  intros Hrun1 Hrun2. destruct ((walkDirs dirs).2) as [e |] eqn:Hwalk.
  - unfold List_run in *. destruct (walkDirs dirs) as [fs [e' |]]; [| done].
    injection Hrun1 as -> ->. injection Hrun2 as -> ->.
    split; [apply sameGroups_refl | done].
  - destruct (List_run_stages _ _ _ _ _ Hrun1 Hwalk)
      as (fs1 & Hs1 & -> & errs1 & He1 & ->).
    destruct (List_run_stages _ _ _ _ _ Hrun2 Hwalk)
      as (fs2 & Hs2 & -> & errs2 & He2 & ->).
    assert (fs1 ≡ₚ fs2) as Hfs.
    { rewrite (groupBySize_run_multiset _ _ Hs1).
      by rewrite (groupBySize_run_multiset _ _ Hs2). }
    split.
    + apply groupByHash_Permutation. by rewrite Hfs.
    + rewrite !errors_Join_None. rewrite Hfs, <- He2 in He1.
      split; intros ->;
        [by apply Permutation_nil_l in He1 | by apply Permutation_nil_r in He1].
Qed.

Lemma hashSuccess_hashedBy hashName f f' :
  hashSuccess hashName f = Some f' → hashedBy hashName f = f'.
Proof.
  unfold hashSuccess, hashedBy. destruct (calcHash _ _) as [hv [e |]]; [done |].
  by intros [= <-].
Qed.

(** X11.  Roots given twice make every file its own duplicate: when the
    list of roots is some list taken twice, every file under the roots that
    could be hashed (to a digest that is not empty) is reported in a
    group. *)
Theorem List_repeated_roots dirs hashName n (lst : DupList) err f f' :
  List_run (dirs ++ dirs) hashName n (lst, err) →
  f ∈ (walkDirs dirs).1 →
  hashSuccess hashName f = Some f' →
  Hash f' ≠ "" →
  ∃ g, lst !! Hash f' = Some g ∧ f' ∈ g.
Proof.
  intros Hrun Hf Hf' Hhash.
  assert (dirs ≠ []) as Hne by (intros ->; by apply not_elem_of_nil in Hf).
  assert (walkDirs (dirs ++ dirs) = (foundRoots dirs ++ foundRoots dirs, None))
    as Hwalk.
  { rewrite walkDirs_found, foundRoots_app; [done |]. by destruct dirs. }
  rewrite walkDirs_found in Hf by done. cbn [fst] in Hf.
  destruct (List_run_stages _ _ _ _ _ Hrun) as (fs1 & Hs1 & -> & _);
    [by rewrite Hwalk |].
  apply groupBySize_run_multiset in Hs1. rewrite Hwalk in Hs1. cbn [fst] in Hs1.
  set (L := foundRoots dirs) in *.
  assert (repeated Size (L ++ L) = L ++ L) as Hall.
  { unfold repeated. apply filter_all. intros x Hx.
    assert (x ∈ L) as HxL by (apply elem_of_app in Hx; tauto).
    pose proof (occurrences_pos Size L x HxL) as Hpos.
    unfold occurrences in *. rewrite bucket_app, length_app. lia. }
  rewrite Hall in Hs1.
  apply hashSuccess_hashedBy in Hf'. subst f'.
  assert (hashedBy hashName <$> fs1
          ≡ₚ (hashedBy hashName <$> L) ++ (hashedBy hashName <$> L)) as Hperm
    by (by rewrite Hs1, fmap_app).
  assert (hashedBy hashName f ∈ hashedBy hashName <$> L) as Hin
    by (apply list_elem_of_fmap; by exists f).
  unfold groupByHash. rewrite groupByHash_on_lookup by done.
  rewrite decide_True.
  - eexists. split; [done |]. unfold bucket. apply list_elem_of_filter.
    split; [done |]. rewrite Hperm. apply elem_of_app. by left.
  - split; [done |].
    rewrite (occurrences_Permutation Hash _ _ _ Hperm).
    pose proof (occurrences_pos Hash _ _ Hin) as Hpos.
    unfold occurrences in *. rewrite bucket_app, length_app. lia.
Qed.

(** X12.  With a concurrency bound below 1 the detection pass returns only
    when no file reaches the Hasher: it returns the error of the Walker, or
    no error when no two walked files have the same size, and in both cases
    no group. *)
Theorem List_without_slots dirs hashName n (lst : DupList) err :
  n < 1 →
  List_run dirs hashName n (lst, err) →
  lst = ∅
  ∧ err = (walkDirs dirs).2
  ∧ (err = None → repeated Size (walkDirs dirs).1 = []).
Proof.
  intros Hn. unfold List_run.
  destruct (walkDirs dirs) as [fs [e |]]; [by intros [= -> ->] |].
  intros (fs1 & fs2 & err' & lst' & Hs1 & (order & _ & Hcalc) & Hh & [= -> ->]).
  unfold calcHashs_on in Hcalc. destruct fs1 as [| f1 fs1].
  - injection Hcalc as <- <-.
    apply groupByHash_run_unique in Hh. split_and!; [done | done |].
    intros _. apply groupBySize_run_multiset in Hs1.
    symmetry in Hs1. by apply Permutation_nil_r in Hs1.
  - destruct (Z.ltb_spec n 1); [done | lia].
Qed.

Lemma bucket_omap_filter (hs : FileInfo → option FileInfo)
  (P : FileInfo → Prop) `{∀ f, Decision (P f)} h (l : FileInfos) :
  (∀ f f', f ∈ l → hs f = Some f' → Hash f' = h → P f) →
  bucket Hash h (omap hs (filter P l)) = bucket Hash h (omap hs l).
Proof.
  induction l as [| a l IH]; intros Hl; [done |].
  assert (bucket Hash h (omap hs (filter P l)) = bucket Hash h (omap hs l)) as IH'
    by (apply IH; intros f f' Hf; apply Hl; by right).
  rewrite filter_cons. cbn [omap list_omap].
  destruct (decide (P a)) as [Ha | Ha]; cbn [omap list_omap].
  - destruct (hs a) as [a' |]; [| exact IH'].
    unfold bucket in *. rewrite !filter_cons. by rewrite IH'.
  - destruct (hs a) as [a' |] eqn:Hhs; [| exact IH'].
    unfold bucket in *. rewrite filter_cons_False; [exact IH' |].
    intros Hh. apply Ha. apply (Hl a a'); [left | done | done].
Qed.

Lemma bucket_omap_filter_le (hs : FileInfo → option FileInfo)
  (P : FileInfo → Prop) `{∀ f, Decision (P f)} h (l : FileInfos) :
  (length (bucket Hash h (omap hs (filter P l)))
   ≤ length (bucket Hash h (omap hs l)))%nat.
Proof.
  induction l as [| a l IH]; [done |].
  rewrite filter_cons. cbn [omap list_omap].
  destruct (decide (P a)); cbn [omap list_omap];
    destruct (hs a) as [a' |]; unfold bucket in *;
    rewrite ?filter_cons; repeat case_decide; simpl; lia.
Qed.

Lemma bucket_omap_size (hs : FileInfo → option FileInfo) h s (l : FileInfos) :
  (∀ f f', f ∈ l → hs f = Some f' → Hash f' = h → Size f = s) →
  (length (bucket Hash h (omap hs l)) ≤ length (bucket Size s l))%nat.
Proof.
  induction l as [| a l IH]; intros Hl; [done |].
  assert (length (bucket Hash h (omap hs l)) ≤ length (bucket Size s l))%nat as IH'
    by (apply IH; intros f f' Hf; apply Hl; by right).
  cbn [omap list_omap]. unfold bucket in *.
  destruct (hs a) as [a' |] eqn:Hhs.
  - rewrite !filter_cons. destruct (decide (Hash a' = h)) as [Hh | Hh].
    + rewrite decide_True by (apply (Hl a a'); [left | done | done]).
      simpl. lia.
    + case_decide; simpl; lia.
  - rewrite filter_cons. case_decide; simpl; lia.
Qed.

(** X13.  The size stage only saves work: when files with the same digest
    have the same size, the pass returns the groups it would return if
    every walked file were hashed, that is the groups of the digests of all
    walked files that could be read. *)
Theorem size_prefilter_sound dirs hashName n (lst : DupList) err :
  List_run dirs hashName n (lst, err) →
  (walkDirs dirs).2 = None →
  digestFixesSize hashName (walkDirs dirs).1 →
  sameGroups lst (groupByHash (omap (hashSuccess hashName) (walkDirs dirs).1)).
Proof.
  intros Hrun Hwalk Hdig.
  destruct (List_run_stages _ _ _ _ _ Hrun Hwalk) as (fs1 & Hs1 & -> & _).
  apply groupBySize_run_multiset in Hs1.
  set (W := (walkDirs dirs).1) in *.
  assert (∀ f, f ∈ fs1 → Hash f = "") as Hfresh.
  { intros f Hf. rewrite Hs1 in Hf. apply elem_of_repeated in Hf as [_ Hf].
    by apply walkDirs_fresh in Hf as [_ ?]. }
  rewrite (groupByHash_hashed _ _ (hashed_outcomes hashName fs1 Hfresh)).
  assert (groupByHash (omap (hashSuccess hashName) (repeated Size W))
          = groupByHash (omap (hashSuccess hashName) W)) as <-.
  { apply map_eq. intros h. unfold groupByHash.
    rewrite !groupByHash_on_lookup by done. unfold occurrences, repeated.
    destruct (decide (h ≠ "" ∧ (2 ≤ length (bucket Hash h (omap (hashSuccess hashName) W)))%nat))
      as [[Hh Hlen] | Hno].
    - rewrite bucket_omap_filter; [by rewrite decide_True |].
      intros f f' Hf Hf' Hhash.
      etrans; [exact Hlen |]. apply bucket_omap_size.
      intros g g' Hg Hg' Hhash'. apply (Hdig g f g' f'); congruence.
    - rewrite decide_False; [done |]. intros [Hh Hlen]. apply Hno. split; [done |].
      etrans; [exact Hlen |]. apply bucket_omap_filter_le. }
  apply groupByHash_Permutation. by rewrite Hs1.
Qed.
End pass.

Lemma List_schedule_independent_witness :
  sameGroups
    (default (∅, None) (List ["/data"] "md5" 1)).1
    (default (∅, None) (List ["/data"] "md5" 8)).1
  ∧ ((default (∅, None) (List ["/data"] "md5" 1)).2 = None
     ↔ (default (∅, None) (List ["/data"] "md5" 8)).2 = None).
Proof.
  apply (List_schedule_independent (H := examplePlatform) ["/data"] "md5" 1 8);
    apply List_run_List; vm_compute; reflexivity.
Defined.

Lemma List_repeated_roots_witness :
  ∃ g, (default (∅, None) (List (["/data"] ++ ["/data"]) "md5" 1)).1
         !! "xxxxxxxxxx" = Some g
       ∧ mkFileInfo "/data/A" 10 "xxxxxxxxxx" ∈ g.
Proof.
  apply (List_repeated_roots (H := examplePlatform) ["/data"] "md5" 1 _
           (default (∅, None) (List (["/data"] ++ ["/data"]) "md5" 1)).2
           fileA (mkFileInfo "/data/A" 10 "xxxxxxxxxx")).
  - apply List_run_List. vm_compute. reflexivity.
  - rewrite walkDirs_example. left.
  - vm_compute. reflexivity.
  - done.
Defined.

Lemma List_without_slots_witness :
  (∅ : DupList) = ∅
  ∧ None = (walkDirs ["/nowhere"]).2
  ∧ ((None : option error) = None → repeated Size (walkDirs ["/nowhere"]).1 = []).
Proof.
  apply (List_without_slots (H := examplePlatform) ["/nowhere"] "md5" 0);
    [lia |]. apply List_run_List. vm_compute. reflexivity.
Defined.

Lemma example_digestFixesSize : digestFixesSize "md5" (walkDirs ["/data"]).1.
Proof.
  rewrite walkDirs_example. cbn [fst]. intros f g f' g' Hf Hg.
  rewrite !elem_of_cons in Hf, Hg.
  destruct Hf as [-> | [-> | [-> | [-> | [-> | ?%not_elem_of_nil]]]]]; [.. | done];
    destruct Hg as [-> | [-> | [-> | [-> | [-> | ?%not_elem_of_nil]]]]];
    vm_compute; intros; by simplify_eq.
Qed.

Lemma size_prefilter_sound_witness :
  sameGroups (default (∅, None) (List ["/data"] "md5" 1)).1
    (groupByHash (omap (hashSuccess "md5") (walkDirs ["/data"]).1)).
Proof.
  apply (size_prefilter_sound (H := examplePlatform) ["/data"] "md5" 1 _
           (default (∅, None) (List ["/data"] "md5" 1)).2).
  - apply List_run_List. vm_compute. reflexivity.
  - vm_compute. reflexivity.
  - apply example_digestFixesSize.
Defined.

Lemma filter_length_pos {A : Type} (P : A → Prop) `{∀ x, Decision (P x)}
  (l : list A) x :
  x ∈ l → P x → (1 ≤ length (filter P l))%nat.
Proof.
  intros Hx HP.
  assert (x ∈ filter P l) as Hin by (by apply list_elem_of_filter).
  destruct (filter P l); [by apply not_elem_of_nil in Hin | simpl; lia].
Qed.

(** Two places of a list that satisfy a predicate count as two. *)
Lemma filter_length_two {A : Type} (P : A → Prop) `{∀ x, Decision (P x)}
  (l : list A) (i j : nat) x y :
  i ≠ j → l !! i = Some x → l !! j = Some y → P x → P y →
  (2 ≤ length (filter P l))%nat.
Proof.
  revert i j. induction l as [| a l IH]; intros i j Hij Hi Hj Hx Hy; [done |].
  rewrite filter_cons. destruct i as [| i], j as [| j]; [done | | |].
  - injection Hi as ->. rewrite decide_True by done. simpl in *.
    pose proof (filter_length_pos P l y (list_elem_of_lookup_2 _ _ _ Hj) Hy). lia.
  - injection Hj as ->. rewrite decide_True by done. simpl in *.
    pose proof (filter_length_pos P l x (list_elem_of_lookup_2 _ _ _ Hi) Hx). lia.
  - simpl in Hi, Hj. assert (i ≠ j) as Hne by lia.
    pose proof (IH i j Hne Hi Hj Hx Hy). case_decide; simpl; lia.
Qed.

Lemma filter_fmap_length {A B : Type} (F : A → B) (P : B → Prop)
  `{∀ x, Decision (P x)} (l : list A) :
  length (filter P (F <$> l)) = length (filter (λ x, P (F x)) l).
Proof.
  induction l as [| a l IH]; [done |].
  rewrite fmap_cons, !filter_cons. case_decide; simpl; by rewrite IH.
Qed.

Section pass_more.
Context `{Platform}.

(** X14.  What the detection pass reports is sound: every record of a
    result stands for a walked file that shares its size with another
    walked file and that could be read to its end; the hash of the record is
    the digest of the content under the selected algorithm, and the record
    is filed under that hash. *)
Theorem List_sound dirs hashName n (lst : DupList) err h g f :
  List_run dirs hashName n (lst, err) →
  lst !! h = Some g → f ∈ g →
  ∃ f0 content,
    f0 ∈ (walkDirs dirs).1
    ∧ (2 ≤ occurrences Size (Size f0) (walkDirs dirs).1)%nat
    ∧ os_Read (Path f0) = Bytes content
    ∧ f = mkFileInfo (Path f0) (Size f0) (hexdigest (newHash hashName) content)
    ∧ h = hexdigest (newHash hashName) content.
Proof.
  intros Hrun Hg Hf. destruct ((walkDirs dirs).2) as [e |] eqn:Hwalk.
  { unfold List_run in Hrun. destruct (walkDirs dirs) as [fs [e' |]]; [| done].
    injection Hrun as -> _. by rewrite lookup_empty in Hg. }
  destruct (List_run_stages _ _ _ _ _ Hrun Hwalk) as (fs1 & Hs1 & -> & _).
  unfold groupByHash in Hg. rewrite groupByHash_on_lookup in Hg by done.
  case_decide as Hh; [| done]. injection Hg as <-. destruct Hh as [Hh _].
  pose proof (bucket_key Hash _ _ _ Hf) as Hkey.
  apply bucket_elem, list_elem_of_fmap in Hf as (f0 & -> & Hf0).
  rewrite (groupBySize_run_multiset _ _ Hs1) in Hf0.
  apply elem_of_repeated in Hf0 as [Hocc Hf0].
  destruct (walkDirs_fresh _ _ Hf0) as [_ Hfresh].
  unfold hashedBy, calcHash in *.
  destruct (os_Read (Path f0)) as [e | e | content] eqn:Hread; simpl in *;
    [congruence | congruence |].
  exists f0, content. by split_and!.
Qed.

(** X15.  What the detection pass reports is complete: two walked files of
    the same size that could both be hashed, to the same digest (not the
    empty string), are reported together in the group of that digest. *)
Theorem List_complete dirs hashName n (lst : DupList) err i j f1 f2 f1' f2' :
  List_run dirs hashName n (lst, err) →
  (walkDirs dirs).2 = None →
  i ≠ j →
  (walkDirs dirs).1 !! i = Some f1 → (walkDirs dirs).1 !! j = Some f2 →
  Size f1 = Size f2 →
  hashSuccess hashName f1 = Some f1' → hashSuccess hashName f2 = Some f2' →
  Hash f1' = Hash f2' → Hash f1' ≠ "" →
  ∃ g, lst !! Hash f1' = Some g ∧ f1' ∈ g ∧ f2' ∈ g.
Proof.
  intros Hrun Hwalk Hij Hi Hj Hsize Hs1 Hs2 Hhash Hne.
  destruct (List_run_stages _ _ _ _ _ Hrun Hwalk) as (fs1 & Hsz & -> & _).
  apply groupBySize_run_multiset in Hsz.
  set (W := (walkDirs dirs).1) in *.
  apply hashSuccess_hashedBy in Hs1, Hs2. subst f1' f2'.
  assert (2 ≤ occurrences Size (Size f1) W)%nat as Hocc.
  { unfold occurrences, bucket.
    by apply (filter_length_two (λ x, Size x = Size f1) W i j f1 f2). }
  assert (f1 ∈ repeated Size W ∧ f2 ∈ repeated Size W) as [Hr1 Hr2].
  { split; apply elem_of_repeated; (split; [| by eapply list_elem_of_lookup_2]);
      [done | by rewrite <- Hsize]. }
  unfold groupByHash. rewrite groupByHash_on_lookup by done.
  rewrite decide_True.
  - eexists. split; [done |]. unfold bucket. rewrite !list_elem_of_filter.
    rewrite Hsz. split; (split; [done | apply list_elem_of_fmap; by eexists]).
  - split; [done |]. unfold occurrences, bucket. rewrite Hsz.
    rewrite filter_fmap_length. unfold repeated. rewrite list_filter_filter.
    apply (filter_length_two _ W i j f1 f2); try done.
    + split; [done |]. by rewrite <- Hsize.
Qed.
End pass_more.

Lemma List_sound_witness :
  ∃ f0 content,
    f0 ∈ (walkDirs ["/data"]).1
    ∧ (2 ≤ occurrences Size (Size f0) (walkDirs ["/data"]).1)%nat
    ∧ os_Read (Path f0) = Bytes content
    ∧ mkFileInfo "/data/B" 10 "xxxxxxxxxx"
      = mkFileInfo (Path f0) (Size f0) (hexdigest (newHash "md5") content)
    ∧ "xxxxxxxxxx" = hexdigest (newHash "md5") content.
Proof.
  apply (List_sound (H := examplePlatform) ["/data"] "md5" 2
           (default (∅, None) (List ["/data"] "md5" 2)).1
           (default (∅, None) (List ["/data"] "md5" 2)).2
           "xxxxxxxxxx"
           [mkFileInfo "/data/A" 10 "xxxxxxxxxx"; mkFileInfo "/data/B" 10 "xxxxxxxxxx"]).
  - apply List_run_List. vm_compute. reflexivity.
  - vm_compute. reflexivity.
  - right. left.
Defined.

Lemma List_complete_witness :
  ∃ g, (default (∅, None) (List ["/data"] "md5" 2)).1 !! "xxxxxxxxxx" = Some g
       ∧ mkFileInfo "/data/A" 10 "xxxxxxxxxx" ∈ g
       ∧ mkFileInfo "/data/B" 10 "xxxxxxxxxx" ∈ g.
Proof.
  apply (List_complete (H := examplePlatform) ["/data"] "md5" 2 _
           (default (∅, None) (List ["/data"] "md5" 2)).2
           0%nat 1%nat fileA fileB
           (mkFileInfo "/data/A" 10 "xxxxxxxxxx")
           (mkFileInfo "/data/B" 10 "xxxxxxxxxx")).
  - apply List_run_List. vm_compute. reflexivity.
  - vm_compute. reflexivity.
  - done.
  - vm_compute. reflexivity.
  - vm_compute. reflexivity.
  - reflexivity.
  - vm_compute. reflexivity.
  - vm_compute. reflexivity.
  - reflexivity.
  - done.
Defined.

(** ** The command line *)

Lemma checkConfig_None_count (cfg : Config) :
  checkConfig cfg = None → 1 ≤ cfg_count cfg.
Proof.
  unfold checkConfig.
  destruct ((cfg_list cfg && cfg_clean cfg)
            || (negb (cfg_list cfg) && negb (cfg_clean cfg))); [done |].
  by destruct (Z.ltb_spec (cfg_count cfg) 1).
Qed.

(** X16.  checkConfig accepts a configuration exactly when one of the two
    modes is chosen and not both, the concurrency bound is at least 1, and
    at least one argument is given. *)
Theorem checkConfig_accepts (cfg : Config) :
  checkConfig cfg = None
  ↔ cfg_list cfg ≠ cfg_clean cfg ∧ 1 ≤ cfg_count cfg ∧ cfg_args cfg ≠ [].
Proof.
  unfold checkConfig.
  destruct (cfg_list cfg), (cfg_clean cfg); cbn [andb orb negb];
    destruct (Z.ltb_spec (cfg_count cfg) 1);
    destruct (cfg_args cfg); simpl;
    (split; [intros ?; try done; split_and!; (done || lia)
            | intros (? & ? & ?); try done; try lia]).
Qed.

(** *** Reading the list files *)

Lemma readFiles_outcome files (d : Disk) delList :
  match readFiles files d delList with
  | (paths, None) =>
      ∃ contents,
        Forall2 (λ f c, d !! f = Some (inr c)) files contents
        ∧ paths = delList
                  ++ concat ((λ c, keptPaths (scannerLines c)) <$> contents)
  | (paths, Some err) =>
      paths = []
      ∧ ∃ f e, f ∈ files ∧ err = openError f e ∧ ∀ c, d !! f ≠ Some (inr c)
  end.
Proof.
  revert delList. induction files as [| f files IH]; intros delList.
  - simpl. exists []. split; [constructor | by rewrite app_nil_r].
  - cbn [readFiles]. destruct (d !! f) as [[e | content] |] eqn:Hf.
    + split; [done |]. exists f, e. split_and!; [left | done | intros c; congruence].
    + rewrite scanLoop_total. specialize (IH (delList ++ keptPaths (scannerLines content))).
      destruct (readFiles files d _) as [paths [err |]].
      * destruct IH as (-> & f' & e & Hin & -> & Hno).
        split; [done |]. exists f', e. split_and!; [by right | done | done].
      * destruct IH as (contents & Hall & ->).
        exists (content :: contents). split; [by constructor |].
        rewrite fmap_cons. simpl. by rewrite app_assoc.
    + split; [done |]. eexists f, _. split_and!; [left | done | intros c; congruence].
Qed.

(** X17.  readList is all or nothing.  When every list file can be opened
    it returns, file after file and line after line, the first field of
    every line that is not a delimiter.  When a file cannot be opened it
    returns no path at all, also none of the files read before, and the
    error names a file that could not be opened. *)
Theorem readList_outcome files (d : Disk) :
  match readList files d with
  | (paths, None) =>
      ∃ contents,
        Forall2 (λ f c, d !! f = Some (inr c)) files contents
        ∧ paths = concat ((λ c, keptPaths (scannerLines c)) <$> contents)
  | (paths, Some err) =>
      paths = []
      ∧ ∃ f e, f ∈ files ∧ err = openError f e ∧ ∀ c, d !! f ≠ Some (inr c)
  end.
Proof. apply (readFiles_outcome files d []). Qed.

Lemma scanTokens_long pre long rest :
  (∀ line, line ∈ pre → Z.of_nat (String.length line) < MaxScanTokenSize) →
  MaxScanTokenSize ≤ Z.of_nat (String.length long) →
  scanTokens (pre ++ long :: rest) = dropCR <$> pre.
Proof.
  intros Hpre Hlong. induction pre as [| line pre IH].
  - simpl. rewrite decide_False; [done | lia].
  - rewrite <- app_comm_cons. cbn [scanTokens].
    rewrite decide_True by (apply Hpre; left).
    rewrite fmap_cons. f_equal. apply IH. intros l Hl. apply Hpre. by right.
Qed.

(** X18.  A line of 64 KiB or more ends the reading of a list file without
    an error: readList returns the paths of the lines before it, and the
    paths of all lines after it are dropped in silence. *)
Theorem readList_long_line f (d : Disk) (pre rest : list string) long :
  (∀ line, line ∈ pre →
     hasByte LF line = false ∧ Z.of_nat (String.length line) < MaxScanTokenSize) →
  hasByte LF long = false →
  MaxScanTokenSize ≤ Z.of_nat (String.length long) →
  (∀ line, line ∈ rest → hasByte LF line = false) →
  d !! f = Some (inr (unlines (pre ++ long :: rest))) →
  readList [f] d = (keptPaths (dropCR <$> pre), None).
Proof.
  intros Hpre HlongLF Hlong Hrest Hf.
  unfold readList. cbn [readFiles]. rewrite Hf, scanLoop_total. cbn [readFiles app].
  unfold scannerLines. rewrite rawLines_unlines.
  - rewrite scanTokens_long; [done | | done]. intros l Hl. by apply Hpre.
  - intros l Hl. apply elem_of_app in Hl as [Hl | Hl]; [by apply Hpre |].
    apply elem_of_cons in Hl as [-> | Hl]; [done | by apply Hrest].
Qed.

Lemma readList_long_line_witness :
  readList ["del.txt"]
    {[ "del.txt" := inr (unlines (["/d/a"] ++ longLine :: ["/d/b"; "/d/c"])) ]}
  = (keptPaths (dropCR <$> ["/d/a"]), None).
Proof.
  apply (readList_long_line "del.txt" _ ["/d/a"] ["/d/b"; "/d/c"] longLine).
  - intros line ->%list_elem_of_singleton. by vm_compute.
  - vm_compute. reflexivity.
  - vm_compute. discriminate.
  - intros line Hl. rewrite !elem_of_cons in Hl.
    destruct Hl as [-> | [-> | ?%not_elem_of_nil]]; [| | done]; by vm_compute.
  - apply lookup_singleton_eq.
Defined.

(** *** Writing the list file *)

Lemma writeGroups_not_empty visit : visit ≠ [] → writeGroups visit ≠ "".
Proof.
  intros Hv. rewrite writeGroups_unlines. destruct visit as [| [k v] visit]; [done |].
  rewrite linesOf_cons. done.
Qed.

(** X19.  saveList fails exactly when the result has no group or the file
    cannot be opened; then nothing is written and nothing is printed.  When
    it succeeds, the file holds the text that was printed and nothing else
    (what it held before is gone), the text is not empty, and no other file
    is touched. *)
Theorem saveList_outcome f (l : DupList) (d d' : Disk) out err :
  saveList_run f l d (d', out, err) →
  (err = None ↔ l ≠ ∅ ∧ ∀ e, d !! f ≠ Some (inl e))
  ∧ (err ≠ None → d' = d ∧ out = "")
  ∧ (err = None → d' = <[f := inr out]> d ∧ out ≠ "").
Proof.
  intros (visit & Hvisit & Hres). unfold saveList_on in Hres.
  destruct (decide (size l = 0%nat)) as [Hsize | Hsize].
  { injection Hres as -> -> ->. apply map_size_empty_iff in Hsize.
    split_and!; [| done | done]. split; [done | by intros [? _]]. }
  assert (l ≠ ∅) as Hl by (by rewrite <- map_size_empty_iff).
  assert (visit ≠ []) as Hne.
  { intros ->. apply Permutation_nil_l in Hvisit. symmetry in Hvisit.
    by apply map_to_list_empty_iff in Hvisit. }
  destruct (d !! f) as [[e | c] |] eqn:Hf; injection Hres as -> -> ->.
  - split_and!; [| done | done]. split; [done |]. intros [_ Hno]. by destruct (Hno e).
  - split_and!; [done | done |]. intros _. split; [done | by apply writeGroups_not_empty].
  - split_and!; [done | done |]. intros _. split; [done | by apply writeGroups_not_empty].
Qed.

Lemma saveList_outcome_witness :
  let '(d', out, err) :=
    saveList_on (map_to_list plainGroups) "list.txt" plainGroups ∅ in
  (err = None ↔ plainGroups ≠ ∅ ∧ ∀ e, (∅ : Disk) !! "list.txt" ≠ Some (inl e))
  ∧ (err ≠ None → d' = ∅ ∧ out = "")
  ∧ (err = None → d' = <["list.txt" := inr out]> ∅ ∧ out ≠ "").
Proof.
  destruct (saveList_on (map_to_list plainGroups) "list.txt" plainGroups ∅)
    as [[d' out] err] eqn:Hsave.
  apply (saveList_outcome "list.txt" plainGroups ∅ d' out err).
  exists (map_to_list plainGroups). split; [reflexivity | by rewrite Hsave].
Defined.

(** X20.  A list of bare paths is read as it is written: when the lines of
    a file are paths without tab and line feed that do not end in a carriage
    return, are not the delimiter and fit into the buffer of the scanner,
    readList returns exactly these paths, in their order. *)
Theorem readList_bare_paths f (d : Disk) (paths : list string) :
  (∀ p, p ∈ paths →
     hasByte TAB p = false ∧ hasByte LF p = false ∧ dropCR p = p
     ∧ p ≠ splitLine ∧ Z.of_nat (String.length p) < MaxScanTokenSize) →
  d !! f = Some (inr (unlines paths)) →
  readList [f] d = (paths, None).
Proof.
  intros Hpaths Hf. unfold readList. cbn [readFiles].
  rewrite Hf, scanLoop_total. cbn [readFiles app]. f_equal.
  unfold scannerLines.
  rewrite rawLines_unlines by (intros p Hp; by apply Hpaths).
  rewrite scanTokens_short by (intros p Hp; by apply Hpaths).
  clear Hf. induction paths as [| p paths IH]; [done |].
  destruct (Hpaths p (list_elem_of_here _ _)) as (Htab & _ & Hcr & Hdel & _).
  rewrite fmap_cons, keptPaths_cons, Hcr, decide_True by done.
  rewrite firstField_bare by done. f_equal.
  apply IH. intros q Hq. apply Hpaths. by right.
Qed.

Lemma readList_bare_paths_witness :
  readList ["del.txt"] {[ "del.txt" := inr (unlines barePaths) ]}
  = (barePaths, None).
Proof.
  apply (readList_bare_paths "del.txt" _ barePaths).
  - intros p Hp. unfold barePaths in Hp. rewrite !elem_of_cons in Hp.
    destruct Hp as [-> | [-> | ?%not_elem_of_nil]]; [| | done];
      split_and!; by vm_compute.
  - apply lookup_singleton_eq.
Defined.

Section cmd.
Context `{Platform} {World : Type} `{Remover World}.

Lemma List_run_failure dirs hashName n (lst : DupList) err :
  List_run dirs hashName n (lst, err) →
  (walkDirs dirs).2 = None →
  (∃ f, f ∈ repeated Size (walkDirs dirs).1 ∧ is_Some (hashFailure hashName f)) →
  is_Some err.
Proof.
  intros Hrun Hwalk (f & Hf & [e He]).
  destruct (List_run_stages _ _ _ _ _ Hrun Hwalk) as (fs1 & Hs1 & _ & errs & Herrs & ->).
  apply errors_Join_Some. intros ->. apply Permutation_nil_l in Herrs.
  rewrite <- (groupBySize_run_multiset _ _ Hs1) in Hf.
  assert (e ∈ omap (hashFailure hashName) fs1) as Hin
    by (apply list_elem_of_omap; by exists f).
  rewrite <- Herrs in Hin. by apply not_elem_of_nil in Hin.
Qed.

Lemma cmd_list_run_cmd_list cfg (d : Disk) res :
  cmd_list cfg d = Some res → cmd_list_run cfg d res.
Proof.
  unfold cmd_list, cmd_list_run.
  destruct (List _ _ _) as [[l [e |]] |] eqn:HList; [| | done]; intros [= <-].
  - exists l, (Some e). split; [by apply List_run_List | done].
  - exists l, None. split; [by apply List_run_List |].
    by exists (map_to_list l).
Qed.

(** X21.  list saves the result of a pass only when the pass returned no
    error.  Whenever list returns an error it has written and printed
    nothing; and one file that reached the Hasher and could not be hashed
    is enough for that, whatever groups the other files form. *)
Theorem cmd_list_all_or_nothing cfg (d d' : Disk) out err :
  cmd_list_run cfg d (d', out, err) →
  (is_Some err → d' = d ∧ out = "")
  ∧ ((walkDirs (cfg_args cfg)).2 = None →
     (∃ f, f ∈ repeated Size (walkDirs (cfg_args cfg)).1
           ∧ is_Some (hashFailure (cfg_hash cfg) f)) →
     is_Some err).
Proof.
  intros (l & e & Hrun & Hres). split.
  - destruct e as [e |]; [by intros _; injection Hres as -> -> _ |].
    destruct Hres as (visit & _ & Hres). unfold saveList_on in Hres.
    destruct (decide (size l = 0%nat)); [by injection Hres as -> -> _ |].
    destruct (d !! cfg_outFile cfg) as [[e | c] |]; injection Hres as -> -> ->;
      (done || by intros [? ?]).
  - intros Hwalk Hfail.
    destruct (List_run_failure _ _ _ _ _ Hrun Hwalk Hfail) as [e' ->].
    by injection Hres as _ _ ->.
Qed.

(** X22.  clean deletes nothing when a list file cannot be opened.
    Otherwise it tries to delete every path that readList returned; it
    prints the number of deleted files only when every deletion succeeded,
    and with a failed deletion it returns the error and prints nothing, the
    other deletions being done all the same. *)
Theorem cmd_clean_outcome cfg (d : Disk) (w : World) :
  (∀ e, (readList (cfg_args cfg) d).2 = Some e → cmd_clean cfg d w = (w, "", Some e))
  ∧ ((readList (cfg_args cfg) d).2 = None →
     let delList := (readList (cfg_args cfg) d).1 in
     (cmd_clean cfg d w).1.1 = (attempts delList w).2
     ∧ ((cmd_clean cfg d w).2 = None
        ↔ ∀ a, a ∈ (attempts delList w).1 → a.2 = None)
     ∧ (is_Some (cmd_clean cfg d w).2 → (cmd_clean cfg d w).1.2 = "")
     ∧ ((cmd_clean cfg d w).2 = None →
        (cmd_clean cfg d w).1.2
        = "成功清理 " +:+ pretty (Z.of_nat (length delList)) +:+ " 个文件")).
Proof.
  unfold cmd_clean. destruct (readList (cfg_args cfg) d) as [delList [e |]].
  - split; [by intros ? [= <-] | done].
  - split; [done |]. intros _. cbn [fst snd].
    pose proof (Clean_attempts delList w) as HClean.
    pose proof (Clean_full_count delList w) as Hcount.
    destruct (Clean delList w) as [w' [n err]]. cbn [fst snd] in *.
    injection HClean as -> -> Herr.
    destruct err as [e |]; cbn [fst snd].
    + split_and!; [done | | done | done]. split; [done |].
      intros Hall. apply omap_failure_nil in Hall. by rewrite Hall in Herr.
    + split_and!; [done | | by intros [? ?] |].
      * split; [intros _ | done]. apply omap_failure_nil.
        by destruct (omap failure (attempts delList w).1).
      * intros _. by rewrite Hcount.
Qed.

(** X23.  Execute always comes to an end: the check of the configuration
    keeps a concurrency bound below 1, with which the pass would not
    return, away from it. *)
Theorem Execute_returns cfg (d : Disk) (w : World) :
  ∃ res, Execute_run cfg d w res.
Proof.
  unfold Execute_run. destruct (checkConfig cfg) as [e |] eqn:Hcheck; [by eexists |].
  apply checkConfig_None_count in Hcheck as Hcount.
  destruct (cfg_list cfg).
  - destruct (List_run_exists (cfg_args cfg) (cfg_hash cfg) (cfg_count cfg) Hcount)
      as [[l [e |]] Hrun].
    + eexists (d, w, _), d, "", (Some e). split; [| done].
      exists l, (Some e). by split.
    + destruct (saveList_on (map_to_list l) (cfg_outFile cfg) l d)
        as [[d' out] err] eqn:Hsave.
      eexists (d', w, _), d', out, err. split; [| done].
      exists l, None. split; [done |]. by exists (map_to_list l).
  - destruct (cfg_clean cfg); [| by eexists].
    destruct (cmd_clean cfg d w) as [[w' out] err]. by eexists.
Qed.
End cmd.

Lemma cmd_list_all_or_nothing_witness :
  (is_Some (Some "计算文件 /data/E 的Hash值失败: open /data/E: permission denied")
   → (∅ : Disk) = ∅ ∧ "" = "")
  ∧ ((walkDirs (cfg_args listConfig)).2 = None →
     (∃ f, f ∈ repeated Size (walkDirs (cfg_args listConfig)).1
           ∧ is_Some (hashFailure (cfg_hash listConfig) f)) →
     is_Some (Some "计算文件 /data/E 的Hash值失败: open /data/E: permission denied")).
Proof.
  apply (cmd_list_all_or_nothing (H := examplePlatform) listConfig ∅ ∅ "").
  apply cmd_list_run_cmd_list. vm_compute. reflexivity.
Defined.
